(** * Generalized Glossing Guidelines: the BILOU encoder and the validator

    A shallow embedding of [bin/ggg2bilou.py] and [bin/validate_ggg.py].
    Python [str] values are Rocq strings (iterated as lists of characters),
    Python [int] values are [Z], exceptions are an explicit result type, and
    the [dict] that maps span ids to gloss labels is a [gmap Z string]. *)

From Stdlib Require Import ZArith String Ascii List Lia Bool.
From stdpp Require Import base gmap strings list.

Set Warnings "-register-all".

Open Scope string_scope.
Open Scope list_scope.
Open Scope Z_scope.

(** ** Python results and exceptions *)

Module Py.

(** What [yaml.load] with the safe loader builds.  A [dict] keeps its items
    in insertion order; a [float] is given by its IEEE 754 bit pattern, of
    which the validator only looks at the type. *)
Inductive value : Type :=
| VNone
| VBool (b : bool)
| VInt (z : Z)
| VFloat (bits : Z)
| VStr (s : string)
| VList (items : list value)
| VDict (items : list (string * value)).

(** The exceptions the two scripts raise or meet.  [ParseError] is parsy's,
    [ParserError] is [yaml.parser.ParserError]; they are different classes.
    [NonTermination] is not a Python exception: it stands for a run that
    never returns, which the model reaches only when a repetition
    combinator exhausts its fuel. *)
Inductive exn : Type :=
| IndexError
| KeyError (k : value)
| TypeError
| AttributeError
| OSError
| ParseError
| ParserError
| StructureError
| AlignmentError
| NonTermination.

Inductive result (A : Type) : Type :=
| Ok (a : A)
| Raise (e : exn).
Arguments Ok {A} a.
Arguments Raise {A} e.

Definition bind {A B} (m : result A) (k : A -> result B) : result B :=
  match m with
  | Ok a => k a
  | Raise e => Raise e
  end.

(** A list comprehension whose body may raise: the first exception wins. *)
Fixpoint mapM {A B} (f : A -> result B) (l : list A) : result (list B) :=
  match l with
  | [] => Ok []
  | x :: l' =>
      bind (f x) (fun y => bind (mapM f l') (fun ys => Ok (y :: ys)))
  end.

(** A [for] loop whose body may raise, threading the loop state. *)
Fixpoint foldM {A S} (f : S -> A -> result S) (l : list A) (s : S)
  : result S :=
  match l with
  | [] => Ok s
  | x :: l' => bind (f s x) (foldM f l')
  end.

(** [enumerate(l)], counting from [i]. *)
Fixpoint enumerate_from {A} (i : Z) (l : list A) : list (Z * A) :=
  match l with
  | [] => []
  | x :: l' => (i, x) :: enumerate_from (i + 1) l'
  end.

Definition enumerate {A} (l : list A) : list (Z * A) := enumerate_from 0 l.

(** [l[-k]] for [k >= 1]: [None] stands for [IndexError]. *)
Definition neg_index {A} (l : list A) (k : nat) : option A :=
  if (k <=? length l)%nat then l !! (length l - k)%nat else None.

(** [s.split(sep)] with an explicit separator: every occurrence splits,
    empty pieces are kept, and the empty string gives one empty piece. *)
Fixpoint split (sep : ascii) (s : list ascii) : list (list ascii) :=
  match s with
  | [] => [[]]
  | c :: s' =>
      if Ascii.eqb c sep then [] :: split sep s'
      else match split sep s' with
           | [] => [[c]]
           | w :: ws => (c :: w) :: ws
           end
  end.

End Py.

#[global] Instance result_bind : MBind Py.result := fun A B k m => Py.bind m k.

(** ** The parsy combinators the two scripts use

    parsy is a library, not part of the repository; the combinators below
    follow its documented behaviour.  A parser is applied to the input that
    is left and either succeeds with a value and the rest of the input or
    fails; alternatives are tried in order and the first success is kept,
    and a repetition takes as many items as it can, without backtracking. *)

Module Parsy.
Import Py.

Inductive reply (A : Type) : Type :=
| Success (v : A) (rest : list ascii)
| Failure
| OutOfFuel.
Arguments Success {A} v rest.
Arguments Failure {A}.
Arguments OutOfFuel {A}.

Definition parser (A : Type) : Type := list ascii -> reply A.

(** Character classes of the regular expressions. *)
Definition one_of (cs : string) (c : ascii) : bool :=
  existsb (Ascii.eqb c) (list_ascii_of_string cs).
Definition none_of (cs : string) (c : ascii) : bool := negb (one_of cs c).
Definition is_digit (c : ascii) : bool :=
  ((48 <=? nat_of_ascii c) && (nat_of_ascii c <=? 57))%nat.
Definition is_upper (c : ascii) : bool :=
  ((65 <=? nat_of_ascii c) && (nat_of_ascii c <=? 90))%nat.

(** [int(x)] on a string of decimal digits. *)
Definition digit_value (c : ascii) : Z := Z.of_nat (nat_of_ascii c) - 48.
Definition int (x : string) : Z :=
  fold_left (fun n c => 10 * n + digit_value c) (list_ascii_of_string x) 0.

Fixpoint strip (lit s : list ascii) : option (list ascii) :=
  match lit with
  | [] => Some s
  | c :: lit' =>
      match s with
      | d :: s' => if Ascii.eqb c d then strip lit' s' else None
      | [] => None
      end
  end.

(** [string(lit)] *)
Definition string_ (lit : string) : parser string := fun s =>
  match strip (list_ascii_of_string lit) s with
  | Some r => Success lit r
  | None => Failure
  end.

(** The longest prefix of the input inside a character class. *)
Fixpoint take_while (cls : ascii -> bool) (s : list ascii)
  : list ascii * list ascii :=
  match s with
  | c :: s' =>
      if cls c then let '(m, r) := take_while cls s' in (c :: m, r)
      else ([], s)
  | [] => ([], [])
  end.

(** [regex("[...]*")], [regex("[...]+")] and [regex("[...]")] *)
Definition regex_star (cls : ascii -> bool) : parser string := fun s =>
  let '(m, r) := take_while cls s in Success (string_of_list_ascii m) r.

Definition regex_plus (cls : ascii -> bool) : parser string := fun s =>
  match take_while cls s with
  | ([], _) => Failure
  | (m, r) => Success (string_of_list_ascii m) r
  end.

Definition regex_one (cls : ascii -> bool) : parser string := fun s =>
  match s with
  | c :: r => if cls c then Success (String c EmptyString) r else Failure
  | [] => Failure
  end.

Definition success {A} (v : A) : parser A := fun s => Success v s.

Definition pbind {A B} (p : parser A) (k : A -> parser B) : parser B :=
  fun s =>
    match p s with
    | Success v r => k v r
    | Failure => Failure
    | OutOfFuel => OutOfFuel
    end.

(** [p.map(f)] *)
Definition pmap {A B} (f : A -> B) (p : parser A) : parser B :=
  pbind p (fun v => success (f v)).

(** [seq(p, q)] and [seq(p, q, r)] *)
Definition seq2 {A B} (p : parser A) (q : parser B) : parser (A * B) :=
  pbind p (fun a => pbind q (fun b => success (a, b))).

Definition seq3 {A B C} (p : parser A) (q : parser B) (r : parser C)
  : parser (A * B * C) :=
  pbind p (fun a => pbind q (fun b => pbind r (fun c => success (a, b, c)))).

(** [p >> q], [p << q] and [p.result(v)] *)
Definition then_ {A B} (p : parser A) (q : parser B) : parser B :=
  pbind p (fun _ => q).

Definition skip {A B} (p : parser A) (q : parser B) : parser A :=
  pbind p (fun a => pbind q (fun _ => success a)).

Definition result_ {A B} (p : parser A) (v : B) : parser B :=
  then_ p (success v).

(** [p + q], on parsers of strings and on parsers of lists *)
Definition add (p q : parser string) : parser string :=
  pmap (fun '(a, b) => String.append a b) (seq2 p q).

Definition add_list {A} (p q : parser (list A)) : parser (list A) :=
  pmap (fun '(a, b) => a ++ b) (seq2 p q).

(** [p | q] *)
Definition alt {A} (p q : parser A) : parser A := fun s =>
  match p s with
  | Failure => q s
  | r => r
  end.

(** [p.many()]: the loop of [times] runs until [p] fails.  The fuel is
    one more than the length of the input, which is enough whenever every
    success of [p] consumes input. *)
Fixpoint many_fuel {A} (fuel : nat) (p : parser A) : parser (list A) :=
  fun s =>
    match fuel with
    | O => OutOfFuel
    | S fuel' =>
        match p s with
        | Success v r =>
            match many_fuel fuel' p r with
            | Success vs r' => Success (v :: vs) r'
            | Failure => Failure
            | OutOfFuel => OutOfFuel
            end
        | Failure => Success [] s
        | OutOfFuel => OutOfFuel
        end
    end.

Definition many {A} (p : parser A) : parser (list A) := fun s =>
  many_fuel (S (length s)) p s.

(** [p.times(n)] *)
Fixpoint times {A} (n : nat) (p : parser A) : parser (list A) :=
  match n with
  | O => success []
  | S n' => pbind p (fun v => pmap (cons v) (times n' p))
  end.

(** [p.times(min, float("inf"))] and [p.at_least(n)] *)
Definition times_inf {A} (min : nat) (p : parser A) : parser (list A) :=
  add_list (times min p) (many p).

Definition at_least {A} (n : nat) (p : parser A) : parser (list A) :=
  add_list (times n p) (many p).

(** [p.sep_by(sep, min=min)] *)
Definition sep_by {A B} (p : parser A) (sep : parser B) (min : nat)
  : parser (list A) :=
  let res := add_list (times 1 p) (times_inf (min - 1) (then_ sep p)) in
  match min with
  | O => alt res (success [])
  | _ => res
  end.

Definition eof : parser unit := fun s =>
  match s with
  | [] => Success tt []
  | _ => Failure
  end.

(** [p.parse(stream)]: the whole input has to be consumed. *)
Definition parse {A} (p : parser A) (stream : string) : result A :=
  match skip p eof (list_ascii_of_string stream) with
  | Success v _ => Ok v
  | Failure => Raise ParseError
  | OutOfFuel => Raise NonTermination
  end.

End Parsy.

(** ** bin/ggg2bilou.py: the span numbering engine *)

Module Bilou.
Import Py Parsy.

Record Character : Type := mkCharacter {
  char : ascii;
  tag : string;
  op : string;
  span : Z;
  gloss : string
}.

Definition with_tag (t : string) (c : Character) : Character :=
  mkCharacter (char c) t (op c) (span c) (gloss c).

Definition with_span (n : Z) (c : Character) : Character :=
  mkCharacter (char c) (tag c) (op c) n (gloss c).

Definition with_gloss (g : string) (c : Character) : Character :=
  mkCharacter (char c) (tag c) (op c) (span c) g.

(** [sequence()]: the state of the generator is the number the next call
    of [next] yields. *)
Definition sequence : Z := 0.
Definition next (g : Z) : Z * Z := (g, g + 1).

(** [chars[-1].tag = t] on a list that is known not to be empty. *)
Fixpoint set_last_tag (t : string) (cs : list Character) : list Character :=
  match cs with
  | [] => []
  | [c] => [with_tag t c]
  | c :: cs' => c :: set_last_tag t cs'
  end.

(** The local variables of [parse_ur_morph]. *)
Record MorphState : Type := mkMorphState {
  st_morphs : Z;
  st_chars : list Character;
  st_matrix : Z;
  st_span : Z;
  st_tag : string;
  st_op : string;
  st_morph_type : string
}.

(** One iteration of the loop over [enumerate(morph)]: the cases of
    [match c] in their order; [len] is [len(morph)].  The [print(span)] of
    the [>] case only writes to standard output and is left out. *)
Definition morph_step (len : Z) (st : MorphState) (ic : Z * ascii)
  : result MorphState :=
  let '(i, c) := ic in
  let 'mkMorphState g cs matrix sp tg o typ := st in
  if Ascii.eqb c " " then
    let '(m, g') := next g in
    Ok (mkMorphState g' cs m m "B" "S" typ)
  else if Ascii.eqb c "-" then
    if i =? 0 then Ok (mkMorphState g cs matrix sp tg o "suffix")
    else if i =? len - 1 then Ok (mkMorphState g cs matrix sp tg o "prefix")
    else Ok st
  else if Ascii.eqb c "{" then Ok (mkMorphState g cs matrix sp tg "D" typ)
  else if Ascii.eqb c ">" then
    let '(n, g') := next g in
    Ok (mkMorphState g' cs matrix n "B" "A" typ)
  else if Ascii.eqb c "}" then
    match neg_index cs 1 with
    | None => Raise IndexError
    | Some lc =>
        let cs' :=
          if String.eqb (op lc) "A" then
            let cs1 := set_last_tag "L" cs in
            if (Z.of_nat (length cs) =? 0)
               || ((1 <? Z.of_nat (length cs))
                   && match neg_index cs 2 with
                      | Some c2 => negb (span c2 =? sp)
                      | None => false
                      end)
            then set_last_tag "U" cs1
            else cs1
          else cs in
        Ok (mkMorphState g cs' matrix matrix tg "S" typ)
    end
  else
    Ok (mkMorphState g (cs ++ [mkCharacter c tg o sp ""]) matrix sp
          (if String.eqb tg "B" then "I" else tg) o typ).

Definition morph_init : MorphState :=
  let '(_, g) := next sequence in
  mkMorphState g [] 0 0 "B" "S" "root".

Definition parse_ur_morph_chars (morph : list ascii)
  : result (string * list Character) :=
  st ← foldM (morph_step (Z.of_nat (length morph))) (enumerate morph)
          morph_init;
  match neg_index (st_chars st) 1 with
  | None => Raise IndexError
  | Some _ => Ok (st_morph_type st, set_last_tag "L" (st_chars st))
  end.

Definition parse_ur_morph (morph : string)
  : result (string * list Character) :=
  parse_ur_morph_chars (list_ascii_of_string morph).

(** The [match (last_typ, typ)] of [parse_ur]: is a word boundary
    character emitted before a morph of type [typ]? *)
Definition boundary (last_typ typ : string) : bool :=
  (String.eqb last_typ "root" && (String.eqb typ "root" || String.eqb typ "prefix"))
  || (String.eqb last_typ "suffix" && (String.eqb typ "root" || String.eqb typ "prefix")).

Definition space_char : Character := mkCharacter " " "O" "S" (-1) "".

(** The loop of [parse_ur] over [enumerate(morphs)]; [start_span] is the
    state of the line's own [sequence()], which yields the morph index. *)
Fixpoint ur_loop (start_span : Z) (last_typ : string)
    (morphs : list (string * list Character)) : list Character :=
  match morphs with
  | [] => []
  | (typ, chars) :: rest =>
      (if boundary last_typ typ then [space_char] else [])
      ++ map (fun c => with_span (span c + start_span) c) chars
      ++ ur_loop (start_span + 1) typ rest
  end.

Definition parse_ur_chars (ur : list ascii) : result (list Character) :=
  morphs ← mapM parse_ur_morph_chars (split " " ur);
  Ok (ur_loop sequence "prefix" morphs).

Definition parse_ur (ur : string) : result (list Character) :=
  parse_ur_chars (list_ascii_of_string ur).

(** [parse_sr] is a stub in the source. *)
Definition parse_sr (sr : string) : list Character := [].

(** The grammar of [parse_gloss]; its parsers are local to the function
    in the source. *)
Definition pg_feature : parser string := regex_plus (none_of " {};-").
Definition pg_spans : parser (list Z) :=
  then_ (string_ ";") (sep_by (pmap int (regex_plus is_digit)) (string_ ",") 0).
Definition pg_process_inner : parser (string * list Z) :=
  alt (seq2 pg_feature pg_spans) (seq2 pg_feature (success [])).
Definition pg_process : parser (string * list Z) :=
  skip (then_ (string_ "{") pg_process_inner) (string_ "}").
Definition pg_morph : parser (string * list (string * list Z)) :=
  seq2 pg_feature (many pg_process).
Definition pg_prefix := skip pg_morph (string_ "-").
Definition pg_suffix := then_ (string_ "-") pg_morph.
Definition pg_root := pg_morph.
Definition pg_glosses : parser (list (string * list (string * list Z))) :=
  sep_by (alt pg_suffix (alt pg_prefix pg_root)) (string_ " ") 0.

Definition parse_gloss (gloss : string)
  : result (list (string * list (string * list Z))) :=
  parse pg_glosses gloss.

(** The body of [for pr in prs] in [merged_form_gloss]: the state is
    [offset] and the dictionary [span_glosses]. *)
Definition bind_process (matrix : Z) (st : Z * gmap Z string)
    (pr : string * list Z) : Z * gmap Z string :=
  let '(offset, span_glosses) := st in
  let max_sp := offset in
  match pr with
  | (ft, []) => (offset + 1, <[matrix + offset := ft]> span_glosses)
  | (ft, spans) =>
      let '(max_sp', span_glosses') :=
        fold_left
          (fun '(mx, sg) sp => (Z.max sp mx, <[matrix + sp := ft]> sg))
          spans (max_sp, span_glosses) in
      (Z.max (max_sp' + 1) (offset + 1), span_glosses')
  end.

(** The body of [for matrix, (ft, prs) in enumerate(gl)]. *)
Definition bind_morph (st : Z * gmap Z string)
    (m : Z * (string * list (string * list Z))) : Z * gmap Z string :=
  let '(offset, span_glosses) := st in
  let '(matrix, (ft, prs)) := m in
  fold_left (bind_process matrix) prs (offset, <[matrix := ft]> span_glosses).

Definition bind_glosses (gl : list (string * list (string * list Z)))
  : Z * gmap Z string :=
  fold_left bind_morph (enumerate gl) (1, ∅).

(** [ur[i].gloss = span_glosses[ur[i].span]] *)
Definition stamp (span_glosses : gmap Z string) (c : Character)
  : result Character :=
  match span_glosses !! span c with
  | Some g => Ok (with_gloss g c)
  | None => Raise (KeyError (VInt (span c)))
  end.

Definition merged_form_gloss (form gloss : string)
  : result (list Character) :=
  ur ← parse_ur form;
  gl ← parse_gloss gloss;
  mapM (stamp (bind_glosses gl).2) ur.

End Bilou.

(** ** bin/validate_ggg.py: the grammars and the validator *)

Module Validate.
Import Py Parsy.

(** *** The document schema *)

Inductive pytype : Type := TStr | TList | TFloat | TInt.

Inductive schema_t : Type :=
| SchType (t : pytype)
| SchDict (fields : list (string * schema_t)).

Definition schema : schema_t :=
  SchDict [ ("obj_lang", SchType TStr);
            ("meta_lang", SchType TList);
            ("segs", SchDict [ ("start", SchType TFloat);
                               ("end", SchType TFloat);
                               ("speaker", SchType TInt);
                               ("ur", SchType TStr);
                               ("sr", SchType TStr);
                               ("gl", SchType TStr);
                               ("tr", SchType TStr) ]) ].

(** [isinstance(v, t)]; [bool] is a subclass of [int]. *)
Definition isinstance (v : value) (t : pytype) : bool :=
  match t, v with
  | TStr, VStr _ => true
  | TList, VList _ => true
  | TFloat, VFloat _ => true
  | TInt, VInt _ => true
  | TInt, VBool _ => true
  | _, _ => false
  end.

(** [d[key]] and [key in d] on an insertion-ordered dictionary. *)
Fixpoint assoc {A} (key : string) (d : list (string * A)) : option A :=
  match d with
  | [] => None
  | (k, v) :: d' => if String.eqb key k then Some v else assoc key d'
  end.

(** *** Grammars for URs and SRs *)

Definition form_seg : parser (string * string) :=
  pmap (fun x => ("seg", x)) (regex_plus (none_of "{}>= -")).

Definition ur_proc : parser (string * string) :=
  pmap (fun x => ("proc", x))
    (add (add (add (add (string_ "{") (regex_star (none_of "}>")))
                   (string_ ">"))
              (regex_star (none_of "}>")))
         (string_ "}")).

Definition sr_proc : parser (string * string) :=
  pmap (fun x => ("proc", x))
    (add (add (string_ "{") (regex_plus (none_of "}"))) (string_ "}")).

Definition FormMorph : Type := string * list (string * string).

Definition ur_morph_core := at_least 1 (alt ur_proc form_seg).
Definition ur_prefix : parser FormMorph :=
  pmap (fun '(x, _) => ("prefix", x)) (seq2 ur_morph_core (string_ "-")).
Definition ur_suffix : parser FormMorph :=
  pmap (fun '(_, x) => ("suffix", x)) (seq2 (string_ "-") ur_morph_core).
Definition ur_proclitic : parser FormMorph :=
  pmap (fun '(x, _) => ("proclitic", x)) (seq2 ur_morph_core (string_ "=")).
Definition ur_enclitic : parser FormMorph :=
  pmap (fun '(_, x) => ("enclitic", x)) (seq2 (string_ "=") ur_morph_core).
Definition ur_root : parser FormMorph :=
  pmap (fun x => ("root", x)) ur_morph_core.
Definition ur_morph : parser FormMorph :=
  alt ur_suffix (alt ur_enclitic (alt ur_prefix (alt ur_proclitic ur_root))).

Definition sr_morph_core := at_least 1 (alt sr_proc form_seg).
Definition sr_prefix : parser FormMorph :=
  pmap (fun '(x, _) => ("prefix", x)) (seq2 sr_morph_core (string_ "-")).
Definition sr_suffix : parser FormMorph :=
  pmap (fun '(_, x) => ("suffix", x)) (seq2 (string_ "-") sr_morph_core).
Definition sr_proclitic : parser FormMorph :=
  pmap (fun '(x, _) => ("proclitic", x)) (seq2 sr_morph_core (string_ "=")).
Definition sr_enclitic : parser FormMorph :=
  pmap (fun '(_, x) => ("enclitic", x)) (seq2 (string_ "=") sr_morph_core).
Definition sr_root : parser FormMorph :=
  pmap (fun x => ("root", x)) sr_morph_core.
Definition sr_morph : parser FormMorph :=
  alt sr_suffix (alt sr_enclitic (alt sr_prefix (alt sr_proclitic sr_root))).

Definition ur_form : parser (list FormMorph) := sep_by ur_morph (string_ " ") 0.
Definition sr_form : parser (list FormMorph) := sep_by sr_morph (string_ " ") 0.

(** *** Grammar for glosses *)

Definition gloss_seg : parser string := regex_plus (none_of " {}=-").

Definition proc_name (c : ascii) : bool :=
  is_digit c || is_upper c || Ascii.eqb c ".".

Definition GlossProc : Type := string * list Z.

Definition gloss_proc_qualified : parser GlossProc :=
  pmap (fun '(x, idxs, _) => (x, idxs))
    (seq3 (add (add (result_ (string_ "{") "") (regex_plus proc_name))
               (result_ (string_ ";") ""))
          (sep_by (pmap int (regex_one is_digit)) (string_ ",") 1)
          (string_ "}")).

Definition gloss_proc_unqualified : parser GlossProc :=
  pmap (fun x => (x, [-1]))
    (add (add (result_ (string_ "{") "") (regex_plus proc_name))
         (result_ (string_ "}") "")).

Definition gloss_proc : parser GlossProc :=
  alt gloss_proc_qualified gloss_proc_unqualified.

Definition GlossMorph : Type := string * (string * list GlossProc).

Definition gloss_morph_core : parser (string * list GlossProc) :=
  seq2 gloss_seg (many gloss_proc).
Definition gloss_morph_prefix : parser GlossMorph :=
  pmap (fun '(x, _) => ("prefix", x)) (seq2 gloss_morph_core (string_ "-")).
Definition gloss_morph_proclitic : parser GlossMorph :=
  pmap (fun '(x, _) => ("proclitic", x)) (seq2 gloss_morph_core (string_ "=")).
Definition gloss_morph_suffix : parser GlossMorph :=
  pmap (fun '(_, x) => ("suffix", x)) (seq2 (string_ "-") gloss_morph_core).
Definition gloss_morph_enclitic : parser GlossMorph :=
  pmap (fun '(_, x) => ("enclitic", x)) (seq2 (string_ "=") gloss_morph_core).
Definition gloss_morph_root : parser GlossMorph :=
  pmap (fun x => ("root", x)) gloss_morph_core.
Definition gloss_morph : parser GlossMorph :=
  alt gloss_morph_suffix
    (alt gloss_morph_enclitic
       (alt gloss_morph_prefix
          (alt gloss_morph_proclitic gloss_morph_root))).

Definition gloss : parser (list GlossMorph) :=
  sep_by gloss_morph (string_ " ") 0.

(** *** Validation functions *)

(** [helper(obj, sch)] of [validate_fields].  [obj.items()] needs a
    [dict]; [key not in sch] needs [sch] to be a [dict] too, and raises a
    [TypeError] when [sch] is one of the schema's types. *)
Fixpoint helper (obj : value) (sch : schema_t) {struct obj} : result unit :=
  match obj with
  | VDict items =>
      (fix loop (items : list (string * value)) : result unit :=
         match items with
         | [] => Ok tt
         | (key, v) :: rest =>
             match sch with
             | SchType _ => Raise TypeError
             | SchDict fields =>
                 match assoc key fields with
                 | None => Raise StructureError
                 | Some sch_key =>
                     _ ← match v with
                         | VDict _ => helper v sch_key
                         | _ =>
                             match sch_key with
                             | SchDict _ => Ok tt
                             | SchType t =>
                                 if isinstance v t then Ok tt
                                 else Raise StructureError
                             end
                         end;
                     loop rest
                 end
             end
         end) items
  | _ => Raise AttributeError
  end.

Definition validate_fields (doc : value) : result unit := helper doc schema.

Definition num_form_procs (form : list (string * string)) : Z :=
  fold_left Z.add
    (map (fun _ => 1) (List.filter (fun '(t, _) => String.eqb t "proc") form)) 0.

Definition num_gloss_procs (g_procs : list GlossProc) : Z :=
  fold_left (fun n '(_, idxs) => n + Z.of_nat (length idxs)) g_procs 0.

Definition validate_procs (u s : list (string * string))
    (g : string * list GlossProc) : result unit :=
  let '(_, g_procs) := g in
  if (num_form_procs u =? num_form_procs s)
     && (num_form_procs s =? num_gloss_procs g_procs)
  then Ok tt
  else Raise AlignmentError.

(** [zip(ur, sr, gl)] *)
Fixpoint zip3 {A B C} (a : list A) (b : list B) (c : list C)
  : list (A * B * C) :=
  match a, b, c with
  | x :: a', y :: b', z :: c' => (x, y, z) :: zip3 a' b' c'
  | _, _, _ => []
  end.

(** The body of the loop over the tokens of one segment. *)
Definition validate_token (tok : FormMorph * FormMorph * GlossMorph)
  : result unit :=
  let '((u_type, u), (s_type, s), (g_type, g)) := tok in
  if String.eqb u_type s_type && String.eqb s_type g_type then
    match validate_procs u s g with
    | Raise AlignmentError => Raise AlignmentError
    | r => r
    end
  else Raise AlignmentError.

(** [grammar.parse(seg[key])] inside its [try]: a [ParseError] becomes a
    [StructureError]; a missing key or a value that is not a string is
    not caught. *)
Definition parse_field {A} (grammar : parser A) (seg : value) (key : string)
  : result A :=
  match seg with
  | VDict items =>
      match assoc key items with
      | None => Raise (KeyError (VStr key))
      | Some (VStr line) =>
          match parse grammar line with
          | Raise ParseError => Raise StructureError
          | r => r
          end
      | Some _ => Raise TypeError
      end
  | _ => Raise TypeError
  end.

(** The body of the loop over [doc["segs"]]. *)
Definition validate_seg (seg : value) : result unit :=
  ur ← parse_field ur_form seg "ur";
  sr ← parse_field sr_form seg "sr";
  gl ← parse_field gloss seg "gl";
  if (length ur =? length sr)%nat && (length sr =? length gl)%nat then
    foldM (fun _ tok => validate_token tok) (zip3 ur sr gl) tt
  else Raise AlignmentError.

Definition validate_segs (doc : value) : result unit :=
  match doc with
  | VDict items =>
      match assoc "segs" items with
      | None => Raise (KeyError (VStr "segs"))
      | Some (VList segs) => foldM (fun _ seg => validate_seg seg) segs tt
      | Some (VStr "") | Some (VDict []) => Ok tt
      | Some _ => Raise TypeError
      end
  | _ => Raise TypeError
  end.

(** What [validate] prints. *)
Inductive line : Type :=
| Validating
| Stage (label : string)
| Valid
| Report (e : exn).

Definition stage (verbose : bool) (label : string) : list line :=
  if verbose then [Stage label] else [].

(** The body of the outer [try] of [validate]: the lines printed and how
    the block ends.  [loaded] is what [open(fn)] followed by [yaml.load]
    gives: the document, or the exception one of them raises. *)
Definition validate_body (loaded : result value) (verbose : bool)
  : list line * result unit :=
  match loaded with
  | Raise OSError => ([], Raise OSError)
  | Raise e => (stage verbose "Valid YAML?...", Raise e)
  | Ok doc =>
      let out1 := stage verbose "Valid YAML?..."
                  ++ stage verbose "Valid YAML fields?..." in
      match validate_fields doc with
      | Raise e => (out1, Raise e)
      | Ok _ =>
          let out2 := out1 ++ stage verbose "Valid forms and gloses?..." in
          match validate_segs doc with
          | Raise e => (out2, Raise e)
          | Ok _ => (out2 ++ [Valid], Ok tt)
          end
      end
  end.

(** [validate(fn, verbose)]: the three handlers of the outer [try]. *)
Definition validate (loaded : result value) (verbose : bool)
  : list line * result unit :=
  let '(out, r) := validate_body loaded verbose in
  match r with
  | Raise ParseError => (Validating :: out ++ [Report ParseError], Ok tt)
  | Raise StructureError => (Validating :: out ++ [Report StructureError], Ok tt)
  | Raise AlignmentError => (Validating :: out ++ [Report AlignmentError], Ok tt)
  | _ => (Validating :: out, r)
  end.

End Validate.

(** ** Notions the properties are stated with *)

Module Props.
Import Py Parsy Bilou Validate.




(** The number of calls of [next] a morph makes in [parse_ur_morph]: one
    for each [>] and one for each space. *)
Definition ticks (morph : list ascii) : Z :=
  Z.of_nat (length (List.filter
                      (fun c => Ascii.eqb c " " || Ascii.eqb c ">") morph)).

(** All span ids held by a state of [parse_ur_morph] were yielded by its
    generator. *)
Definition span_bounded (st : MorphState) : Prop :=
  0 ≤ st_matrix st < st_morphs st
  ∧ 0 ≤ st_span st < st_morphs st
  ∧ Forall (fun c => 0 ≤ span c < st_morphs st) (st_chars st).


(** The process counts in the words of the specification: the number of
    process tokens of a form, and the sum of the lengths of the index
    lists of a gloss. *)
Definition count_procs (form : list (string * string)) : Z :=
  Z.of_nat (length (List.filter (fun tok => String.eqb tok.1 "proc") form)).

Definition gloss_count (g_procs : list GlossProc) : Z :=
  Z.of_nat (sum_list (map (fun pr => length pr.2) g_procs)).

(** A parser never runs out of fuel and never returns more input than it
    was given. *)
Definition safe {A} (p : parser A) : Prop :=
  ∀ s, match p s with
       | Success _ r => (length r ≤ length s)%nat
       | Failure => True
       | OutOfFuel => False
       end.

(** Every success of a parser consumes input. *)
Definition consuming {A} (p : parser A) : Prop :=
  ∀ s v r, p s = Success v r → (length r < length s)%nat.

(** Every value a parser returns satisfies [P]. *)
Definition returns {A} (p : parser A) (P : A → Prop) : Prop :=
  ∀ s v r, p s = Success v r → P v.



(** The characters [parse_ur_morph] emits: all but the five its [match]
    names. *)
Definition is_literal (c : ascii) : bool :=
  negb (Ascii.eqb c " " || Ascii.eqb c "-" || Ascii.eqb c "{"
        || Ascii.eqb c ">" || Ascii.eqb c "}").

(** A morph has an emitted character, and no [}] before the first one. *)
Fixpoint well_started (m : list ascii) : bool :=
  match m with
  | [] => false
  | c :: m' =>
      if Ascii.eqb c "}" then false
      else if is_literal c then true
      else well_started m'
  end.

(** The tags, operations and gloss a character of a morph can carry. *)
Definition char_ok (c : Character) : bool :=
  (String.eqb (tag c) "B" || String.eqb (tag c) "I"
   || String.eqb (tag c) "L" || String.eqb (tag c) "U")
  && (String.eqb (op c) "S" || String.eqb (op c) "D" || String.eqb (op c) "A")
  && String.eqb (Bilou.gloss c) "".

Definition state_ok (st : MorphState) : bool :=
  (String.eqb (st_tag st) "B" || String.eqb (st_tag st) "I")
  && (String.eqb (st_op st) "S" || String.eqb (st_op st) "D"
      || String.eqb (st_op st) "A")
  && forallb char_ok (st_chars st).

(** The morph type read off the first and the last character of a morph. *)
Definition is_dash (c : option ascii) : bool :=
  match c with
  | Some c => Ascii.eqb c "-"
  | None => false
  end.

Definition morph_type_of (m : list ascii) : string :=
  if (2 <=? length m)%nat && is_dash (last m) then "prefix"
  else if is_dash (head m) then "suffix"
  else "root".

End Props.

Import Py Parsy Bilou Props.

(** ** The span numbering engine on single morphs *)

(** C1: the UR morph "a{b>c}d" is a root and gives the four characters
    a(B,S,0), b(I,D,0), c(U,A,1), d(L,S,0), in this order, each with an
    empty gloss; the whole line "a{b>c}d" gives the same characters. *)
Theorem C1_morph_scenario :
  parse_ur_morph "a{b>c}d"
  = Ok ("root", [ mkCharacter "a" "B" "S" 0 ""; mkCharacter "b" "I" "D" 0 "";
                   mkCharacter "c" "U" "A" 1 ""; mkCharacter "d" "L" "S" 0 "" ])
  ∧ parse_ur "a{b>c}d"
    = Ok [ mkCharacter "a" "B" "S" 0 ""; mkCharacter "b" "I" "D" 0 "";
           mkCharacter "c" "U" "A" 1 ""; mkCharacter "d" "L" "S" 0 "" ].
Proof. split; vm_compute; reflexivity. Qed.

(** ** The gloss-to-span binder *)

Example parse_gloss_two_processes :
  parse_gloss "base{X}{Y;2}" = Ok [("base", [("X", []); ("Y", [2])])].
Proof. vm_compute. reflexivity. Qed.

(** C3: a gloss morph at matrix index [m] with the processes
    [("X", []); ("Y", [2])], entered with offset 1, binds span [m] to the
    base feature, span [m + 1] to "X" and span [m + 2] to "Y", and leaves
    the offset at 3. *)
Theorem C3_offset_arithmetic (m : Z) (base : string) (sg : gmap Z string) :
  ∃ sg', bind_morph (1, sg) (m, (base, [("X", []); ("Y", [2])])) = (3, sg')
         ∧ sg' !! m = Some base
         ∧ sg' !! (m + 1) = Some "X"
         ∧ sg' !! (m + 2) = Some "Y".
Proof.
  eexists. split; [reflexivity|].
  repeat split.
  - rewrite !lookup_insert_ne by lia. apply lookup_insert_eq.
  - rewrite lookup_insert_ne by lia. apply lookup_insert_eq.
  - apply lookup_insert_eq.
Qed.

(** ** The grammars of the validator *)

Import Validate.

Lemma take_while_stop (cls : ascii → bool) (s : list ascii) (c : ascii)
    (rest : list ascii) :
  Forall (fun a => cls a = true) s → cls c = false →
  take_while cls (s ++ c :: rest) = (s, c :: rest).
Proof.
  intros Hs Hc. induction Hs as [|a s Ha _ IH]; simpl.
  - now rewrite Hc.
  - now rewrite Ha, IH.
Qed.

Lemma string_of_list_ascii_app (a b : list ascii) :
  string_of_list_ascii (a ++ b)
  = String.append (string_of_list_ascii a) (string_of_list_ascii b).
Proof.
  induction a as [|c a IH]; [reflexivity|].
  change (String c (string_of_list_ascii (a ++ b))
          = String c (string_of_list_ascii a +:+ string_of_list_ascii b)).
  now rewrite IH.
Qed.

Lemma string_append_assoc (a b c : string) :
  String.append (String.append a b) c = String.append a (String.append b c).
Proof.
  induction a as [|x a IH]; [reflexivity|].
  change (String x ((a +:+ b) +:+ c) = String x (a +:+ (b +:+ c))).
  now rewrite IH.
Qed.

(** C6, as amended: a UR process needs its [>].  For all sources and
    targets without [}] and [>], [{source>target}] is a process token, and
    [{source}] is rejected. *)
Theorem C6_ur_proc_needs_gt (source target rest : list ascii) :
  Forall (fun c => none_of "}>" c = true) source →
  Forall (fun c => none_of "}>" c = true) target →
  ur_proc ("{"%char :: source ++ ">"%char :: target ++ "}"%char :: rest)
  = Success ("proc",
             string_of_list_ascii
               ("{"%char :: source ++ ">"%char :: target ++ ["}"%char]))
      rest
  ∧ ur_proc ("{"%char :: source ++ "}"%char :: rest) = Failure.
Proof.
  intros Hs Ht. split.
  - unfold ur_proc, add, pmap, seq2, pbind, regex_star, success.
    change (string_ "{" ("{"%char :: ?s)) with (@Success string "{" s).
    cbv beta iota.
    rewrite (take_while_stop _ source ">" _ Hs eq_refl).
    cbv beta iota.
    change (string_ ">" (">"%char :: ?s)) with (@Success string ">" s).
    cbv beta iota.
    rewrite (take_while_stop _ target "}" _ Ht eq_refl).
    cbv beta iota.
    change (string_ "}" ("}"%char :: ?s)) with (@Success string "}" s).
    cbv beta iota.
    f_equal. f_equal.
    change ("{"%char :: source ++ ">"%char :: target ++ ["}"%char])
      with (["{"%char] ++ source ++ [">"%char] ++ target ++ ["}"%char]).
    rewrite !string_of_list_ascii_app. simpl.
    now rewrite !string_append_assoc.
  - unfold ur_proc, add, pmap, seq2, pbind, regex_star, success.
    change (string_ "{" ("{"%char :: ?s)) with (@Success string "{" s).
    cbv beta iota.
    rewrite (take_while_stop _ source "}" _ Hs eq_refl).
    reflexivity.
Qed.

Lemma C6_ur_proc_needs_gt_witness :
  ur_proc (list_ascii_of_string "{a>o}t")
  = Success ("proc", "{a>o}") (list_ascii_of_string "t")
  ∧ ur_proc (list_ascii_of_string "{a}t") = Failure.
Proof.
  apply (C6_ur_proc_needs_gt ["a"%char] ["o"%char] ["t"%char]);
    repeat constructor.
Defined.

(** C6, as stated, fails: the source "a" is made of allowed characters, and
    "{a}" is neither a UR process nor a UR line. *)
Lemma C6_counterexample :
  none_of "}>" "a" = true
  ∧ ur_proc (list_ascii_of_string "{a}") = Failure
  ∧ parse ur_form "{a}" = Raise ParseError.
Proof. repeat split; vm_compute; reflexivity. Qed.

(** C7, as amended: "un-do" is not a gloss line, since morphs are separated
    by a space; "un- do" is one, with a prefix "un" and a root "do". *)
Theorem C7_gloss_needs_space :
  parse Validate.gloss "un-do" = Raise ParseError
  ∧ parse Validate.gloss "un- do"
    = Ok [("prefix", ("un", [])); ("root", ("do", []))].
Proof. split; vm_compute; reflexivity. Qed.

(** C7, as stated, fails: parsing "un-do" does not give the two morphs. *)
Lemma C7_counterexample :
  parse Validate.gloss "un-do"
  ≠ Ok [("prefix", ("un", [])); ("root", ("do", []))].
Proof. vm_compute. discriminate. Qed.

(** C8: the grammars accept the empty line with zero morphs, and
    [parse_gloss] does too, but [parse_ur] raises an [IndexError] on it:
    [split] gives one empty morph, which has no last character. *)
Theorem C8_empty_line :
  parse ur_form "" = Ok []
  ∧ parse sr_form "" = Ok []
  ∧ parse Validate.gloss "" = Ok []
  ∧ parse_gloss "" = Ok []
  ∧ parse_ur_morph "" = Raise IndexError
  ∧ parse_ur "" = Raise IndexError.
Proof. repeat split; vm_compute; reflexivity. Qed.

(** ** The process-count check *)

Lemma fold_add_ones {A} (l : list A) (a : Z) :
  fold_left Z.add (map (fun _ => 1) l) a = a + Z.of_nat (length l).
Proof.
  revert a. induction l as [|x l IH]; intros a; simpl fold_left.
  - simpl. lia.
  - rewrite IH. simpl length. lia.
Qed.

Lemma num_form_procs_count (form : list (string * string)) :
  num_form_procs form = count_procs form.
Proof.
  unfold num_form_procs, count_procs. rewrite fold_add_ones.
  replace (List.filter (fun '(t, _) => String.eqb t "proc") form)
    with (List.filter (fun tok : string * string => String.eqb tok.1 "proc") form).
  - lia.
  - induction form as [|[t x] form IH]; [reflexivity|].
    simpl. now rewrite IH.
Qed.

Lemma num_gloss_procs_from (g_procs : list GlossProc) (a : Z) :
  fold_left (fun n '(_, idxs) => n + Z.of_nat (length idxs)) g_procs a
  = a + gloss_count g_procs.
Proof.
  unfold gloss_count. revert a.
  induction g_procs as [|[x idxs] g IH]; intros a; simpl.
  - lia.
  - rewrite IH. lia.
Qed.

Lemma num_gloss_procs_count (g_procs : list GlossProc) :
  num_gloss_procs g_procs = gloss_count g_procs.
Proof. unfold num_gloss_procs. now rewrite num_gloss_procs_from. Qed.

(** C5: the check raises an [AlignmentError] exactly when the number of
    process tokens of the UR, that of the SR and the sum of the lengths of
    the index lists of the gloss are not all equal, and returns otherwise;
    an unqualified gloss process counts for one and a qualified one for its
    indices; "cat", "cat" and "cat{NOUN}" count 0, 0 and 1 and are
    rejected. *)
Theorem C5_process_count_check :
  (∀ u s g,
     (validate_procs u s g = Raise AlignmentError
      ↔ ¬ (count_procs u = count_procs s ∧ count_procs s = gloss_count g.2))
     ∧ (validate_procs u s g = Ok tt
        ↔ count_procs u = count_procs s ∧ count_procs s = gloss_count g.2))
  ∧ (∀ x, gloss_count [(x, [-1])] = 1)
  ∧ (∀ x idxs, gloss_count [(x, idxs)] = Z.of_nat (length idxs))
  ∧ parse Validate.gloss "cat{NOUN}" = Ok [("root", ("cat", [("NOUN", [-1])]))]
  ∧ parse Validate.gloss "cat{ABLAUT;1,2}"
    = Ok [("root", ("cat", [("ABLAUT", [1; 2])]))]
  ∧ parse ur_form "cat" = Ok [("root", [("seg", "cat")])]
  ∧ parse sr_form "cat" = Ok [("root", [("seg", "cat")])]
  ∧ num_form_procs [("seg", "cat")] = 0
  ∧ num_gloss_procs [("NOUN", [-1])] = 1
  ∧ validate_procs [("seg", "cat")] [("seg", "cat")] ("cat", [("NOUN", [-1])])
    = Raise AlignmentError.
Proof.
  split; [|repeat split; try (vm_compute; reflexivity)].
  - intros u s [x g_procs]. unfold validate_procs.
    rewrite !num_form_procs_count, num_gloss_procs_count. simpl snd.
    destruct (count_procs u =? count_procs s) eqn:E1;
      destruct (count_procs s =? gloss_count g_procs) eqn:E2; simpl;
      rewrite ?Z.eqb_eq, ?Z.eqb_neq in *;
      (split; split; intros H; try discriminate; try tauto; try reflexivity).
    all: exfalso; apply H; tauto.
  - intros x idxs. unfold gloss_count. simpl. lia.
Qed.

(** The segment whose lines are "cat", "cat" and "cat{NOUN}" is rejected by
    [validate_segs] with an [AlignmentError]. *)
Example validate_segs_cat :
  validate_segs
    (VDict [("segs", VList [VDict [("ur", VStr "cat"); ("sr", VStr "cat");
                                   ("gl", VStr "cat{NOUN}")]])])
  = Raise AlignmentError.
Proof. vm_compute. reflexivity. Qed.

Example validate_segs_ablaut :
  validate_segs
    (VDict [("segs", VList [VDict [("ur", VStr "c{a>o}t"); ("sr", VStr "c{o}t");
                                   ("gl", VStr "cat{ABLAUT;1}")]])])
  = Ok tt.
Proof. vm_compute. reflexivity. Qed.

(** ** The schema check *)

Example validate_fields_conforming :
  validate_fields
    (VDict [("obj_lang", VStr "deu"); ("meta_lang", VList [VStr "eng"]);
            ("segs", VList [VDict [("start", VFloat 0); ("end", VFloat 1);
                                   ("speaker", VInt 1); ("ur", VStr "cat");
                                   ("sr", VStr "cat"); ("gl", VStr "cat");
                                   ("tr", VStr "cat")]])])
  = Ok tt.
Proof. vm_compute. reflexivity. Qed.

Example validate_fields_unknown_key :
  validate_fields (VDict [("obj_lang", VStr "deu"); ("bogus", VInt 1)])
  = Raise StructureError.
Proof. vm_compute. reflexivity. Qed.

Example validate_fields_wrong_type :
  validate_fields (VDict [("obj_lang", VInt 3)]) = Raise StructureError.
Proof. vm_compute. reflexivity. Qed.

(** A record given directly as a mapping is checked against the schema of
    [segs]. *)
Example validate_fields_segs_mapping :
  validate_fields (VDict [("segs", VDict [("ur", VInt 5)])])
  = Raise StructureError.
Proof. vm_compute. reflexivity. Qed.

(** A mapping where the schema has a type makes [key not in sch] raise a
    [TypeError]. *)
Example validate_fields_mapping_for_leaf :
  validate_fields (VDict [("obj_lang", VDict [("a", VInt 1)])])
  = Raise TypeError.
Proof. vm_compute. reflexivity. Qed.

(** C9: the check does not look inside the list of [segs]: whatever the
    records hold, a document with a string, a list and a list of records
    passes; so does one whose record has a key that is not in the schema
    and an integer for [ur]. *)
Theorem C9_segs_list_unchecked :
  (∀ obj_lang meta_lang segs,
     validate_fields
       (VDict [("obj_lang", VStr obj_lang); ("meta_lang", VList meta_lang);
               ("segs", VList segs)])
     = Ok tt)
  ∧ validate_fields
      (VDict [("obj_lang", VStr "deu"); ("meta_lang", VList [VStr "eng"]);
              ("segs", VList [VDict [("ur", VInt 5); ("bogus", VNone)]])])
    = Ok tt.
Proof. split; [intros|]; reflexivity. Qed.

(** ** The top level *)

(** Of the exceptions that end the body of [validate], the handlers catch
    parsy's [ParseError], [StructureError] and [AlignmentError], and no
    other. *)
Lemma validate_returns_iff (loaded : result value) (verbose : bool) :
  (validate loaded verbose).2 = Ok tt
  ↔ (validate_body loaded verbose).2 = Ok tt
    ∨ (validate_body loaded verbose).2 = Raise ParseError
    ∨ (validate_body loaded verbose).2 = Raise StructureError
    ∨ (validate_body loaded verbose).2 = Raise AlignmentError.
Proof.
  unfold validate. destruct (validate_body loaded verbose) as [out [[]|e]];
    simpl; [tauto|].
  destruct e; simpl; split; intros H; try discriminate; try tauto;
    destruct H as [H|[H|[H|H]]]; discriminate.
Qed.

Example validate_reports_structure_error :
  validate (Ok (VDict [("bogus", VInt 1)])) false
  = ([Validating; Report StructureError], Ok tt).
Proof. vm_compute. reflexivity. Qed.

Example validate_reports_alignment_error :
  validate
    (Ok (VDict [("segs", VList [VDict [("ur", VStr "cat"); ("sr", VStr "cat");
                                       ("gl", VStr "cat{NOUN}")]])]))
    false
  = ([Validating; Report AlignmentError], Ok tt).
Proof. vm_compute. reflexivity. Qed.

(** C10: when the loader raises yaml's [ParserError], [validate] raises it
    again and none of its handlers catches it; the same happens to the
    [KeyError] of a document without [segs]. *)
Theorem C10_invalid_yaml_propagates :
  (∀ verbose,
     validate (Raise ParserError) verbose
     = (Validating :: stage verbose "Valid YAML?...", Raise ParserError))
  ∧ validate (Ok (VDict [("obj_lang", VStr "deu")])) false
    = ([Validating], Raise (KeyError (VStr "segs"))).
Proof. split; [intros|]; reflexivity. Qed.

(** ** Span ids along a line *)

Lemma set_last_tag_spans (t : string) (cs : list Character) :
  map span (set_last_tag t cs) = map span cs.
Proof.
  induction cs as [|c [|c' cs] IH]; [reflexivity | reflexivity |].
  change (span c :: map span (set_last_tag t (c' :: cs))
          = span c :: map span (c' :: cs)).
  now rewrite IH.
Qed.

Lemma set_last_tag_Forall (P : Z → Prop) (t : string) (cs : list Character) :
  Forall (fun c => P (span c)) cs →
  Forall (fun c => P (span c)) (set_last_tag t cs).
Proof.
  intros H. apply List.Forall_map. rewrite set_last_tag_spans.
  now apply List.Forall_map.
Qed.

Lemma span_bounded_weaken (g g' : Z) cs matrix sp tg o typ :
  g ≤ g' →
  span_bounded (mkMorphState g cs matrix sp tg o typ) →
  span_bounded (mkMorphState g' cs matrix sp tg o typ).
Proof.
  unfold span_bounded; simpl. intros Hg (Hm & Hs & Hc).
  repeat split; try lia.
  eapply Forall_impl; [exact Hc|]. simpl. intros c Hcs. lia.
Qed.

(** One step of the morph loop keeps the span ids below the generator,
    which advances by one exactly on a space and on a [>]. *)
Lemma morph_step_bounded (len i : Z) (c : ascii) (st st' : MorphState) :
  span_bounded st →
  morph_step len st (i, c) = Ok st' →
  span_bounded st' ∧ st_morphs st' = st_morphs st + ticks [c].
Proof.
  destruct st as [g cs matrix sp tg o typ].
  unfold morph_step, ticks, span_bounded. simpl List.filter.
  intros (Hm & Hs & Hc); simpl in Hm, Hs, Hc.
  destruct (Ascii.eqb c " ") eqn:E1; simpl orb.
  { intros [= <-]; simpl. repeat split; try lia.
    eapply Forall_impl; [exact Hc|]. simpl. intros; lia. }
  destruct (Ascii.eqb c "-") eqn:E2.
  { assert (Ascii.eqb c ">" = false) as ->
      by (apply Ascii.eqb_eq in E2; now subst c).
    destruct (i =? 0); [|destruct (i =? len - 1)];
      intros [= <-]; simpl; repeat split; try lia; assumption. }
  destruct (Ascii.eqb c "{") eqn:E3.
  { assert (Ascii.eqb c ">" = false) as ->
      by (apply Ascii.eqb_eq in E3; now subst c).
    intros [= <-]; simpl; repeat split; try lia; assumption. }
  destruct (Ascii.eqb c ">") eqn:E4.
  { intros [= <-]; simpl. repeat split; try lia.
    eapply Forall_impl; [exact Hc|]. simpl. intros; lia. }
  destruct (Ascii.eqb c "}") eqn:E5.
  { destruct (neg_index cs 1) as [lc|]; [|discriminate].
    intros [= <-]; simpl. repeat split; try lia.
    destruct (String.eqb (op lc) "A"); [|assumption].
    match goal with |- context [if ?b then _ else _] => destruct b end;
      repeat apply (set_last_tag_Forall (fun n => 0 ≤ n < g)); assumption. }
  intros [= <-]; simpl. repeat split; try lia.
  apply Forall_app. split; [assumption|]. repeat constructor; simpl; lia.
Qed.

Lemma ticks_cons (c : ascii) (l : list ascii) :
  ticks (c :: l) = ticks [c] + ticks l.
Proof.
  unfold ticks. simpl List.filter.
  destruct (Ascii.eqb c " " || Ascii.eqb c ">"); simpl length; lia.
Qed.

Lemma morph_loop_bounded (len : Z) (l : list ascii) :
  ∀ (k : Z) (st st' : MorphState),
    span_bounded st →
    foldM (morph_step len) (enumerate_from k l) st = Ok st' →
    span_bounded st' ∧ st_morphs st' = st_morphs st + ticks l.
Proof.
  induction l as [|c l IH]; intros k st st' Hst; cbn [foldM enumerate_from].
  - intros [= <-]. split; [assumption|]. unfold ticks; simpl. lia.
  - destruct (morph_step len st (k, c)) as [st1|e] eqn:E;
      cbn [bind]; [|discriminate].
    intros Hl.
    destruct (morph_step_bounded _ _ _ _ _ Hst E) as [H1 G1].
    destruct (IH _ _ _ H1 Hl) as [H2 G2].
    split; [assumption|]. rewrite (ticks_cons c l). lia.
Qed.

(** The span ids of a parsed morph lie between 0 and its number of
    ticks. *)
Lemma parse_ur_morph_chars_range (m : list ascii) typ chars :
  parse_ur_morph_chars m = Ok (typ, chars) →
  Forall (fun c => 0 ≤ span c ≤ ticks m) chars.
Proof.
  unfold parse_ur_morph_chars, mbind, result_bind, bind.
  destruct (foldM _ _ _) as [st|e] eqn:E; [|discriminate].
  destruct (neg_index (st_chars st) 1); [|discriminate].
  intros [= <- <-].
  assert (span_bounded morph_init) as H0.
  { unfold span_bounded; simpl. repeat split; try lia. constructor. }
  destruct (morph_loop_bounded _ _ _ _ _ H0 E) as [(_ & _ & Hc) G].
  apply (set_last_tag_Forall (fun n => 0 ≤ n ≤ ticks m)).
  eapply Forall_impl; [exact Hc|]. simpl. intros x Hx.
  change (st_morphs morph_init) with 1 in G. lia.
Qed.



Lemma mapM_lookup {A B} (f : A → result B) (l : list A) :
  ∀ ys, mapM f l = Ok ys →
        ∀ (i : nat) y, ys !! i = Some y → ∃ x, l !! i = Some x ∧ f x = Ok y.
Proof.
  induction l as [|x l IH]; intros ys; cbn [mapM].
  - intros [= <-] i y Hy. destruct i; discriminate.
  - destruct (f x) as [y0|e] eqn:E; cbn [bind]; [|discriminate].
    destruct (mapM f l) as [ys0|e]; cbn [bind]; [|discriminate].
    intros [= <-] [|i] y Hy.
    + injection Hy as <-. exists x. split; [reflexivity | assumption].
    + apply (IH ys0 eq_refl i y Hy).
Qed.


(** ** Termination of the parsers *)

Section ParserFacts.
Context {A B : Type}.

Lemma strip_length (lit s r : list ascii) :
  strip lit s = Some r → (length r + length lit = length s)%nat.
Proof.
  revert s. induction lit as [|c lit IH]; intros s; simpl.
  - intros [= <-]. lia.
  - destruct s as [|d s]; [discriminate|].
    destruct (Ascii.eqb c d); [|discriminate].
    intros H. apply IH in H. simpl. lia.
Qed.

Lemma take_while_length (cls : ascii → bool) (s : list ascii) :
  (length (take_while cls s).1 + length (take_while cls s).2 = length s)%nat.
Proof.
  induction s as [|c s IH]; simpl; [reflexivity|].
  destruct (cls c); [|simpl; lia].
  destruct (take_while cls s) as [m r]. simpl in *. lia.
Qed.


Lemma safe_string_ (lit : string) : safe (string_ lit).
Proof.
  intros s. unfold string_.
  destruct (strip _ s) as [r|] eqn:E; [|exact Logic.I].
  apply strip_length in E. lia.
Qed.

Lemma consuming_string_ (c : ascii) (lit : string) :
  consuming (string_ (String c lit)).
Proof.
  intros s v r. unfold string_.
  destruct (strip _ s) as [r'|] eqn:E; [|discriminate].
  intros [= _ <-]. apply strip_length in E. simpl in E. lia.
Qed.

Lemma safe_regex_star (cls : ascii → bool) : safe (regex_star cls).
Proof.
  intros s. unfold regex_star.
  pose proof (take_while_length cls s) as H.
  destruct (take_while cls s) as [m r]. simpl in *. lia.
Qed.

Lemma safe_regex_plus (cls : ascii → bool) : safe (regex_plus cls).
Proof.
  intros s. unfold regex_plus.
  pose proof (take_while_length cls s) as H.
  destruct (take_while cls s) as [[|c m] r]; simpl in *; [exact Logic.I | lia].
Qed.

Lemma consuming_regex_plus (cls : ascii → bool) : consuming (regex_plus cls).
Proof.
  intros s v r. unfold regex_plus.
  pose proof (take_while_length cls s) as H.
  destruct (take_while cls s) as [[|c m] r']; [discriminate|].
  intros [= _ <-]. simpl in *. lia.
Qed.

Lemma safe_regex_one (cls : ascii → bool) : safe (regex_one cls).
Proof.
  intros [|c s]; simpl; [exact Logic.I|].
  destruct (cls c); simpl; [lia | exact Logic.I].
Qed.

Lemma safe_success (v : A) : safe (success v).
Proof. intros s. simpl. lia. Qed.

Lemma safe_eof : safe eof.
Proof. intros [|c s]; simpl; [lia | exact Logic.I]. Qed.

Lemma safe_pbind (p : parser A) (k : A → parser B) :
  safe p → (∀ a, safe (k a)) → safe (pbind p k).
Proof.
  intros Hp Hk s. unfold pbind. specialize (Hp s).
  destruct (p s) as [v r| |]; [|exact Logic.I | exact Hp].
  specialize (Hk v r). destruct (k v r); [lia | exact Logic.I | exact Hk].
Qed.

Lemma consuming_pbind (p : parser A) (k : A → parser B) :
  consuming p → (∀ a, safe (k a)) → consuming (pbind p k).
Proof.
  intros Hp Hk s v r. unfold pbind.
  destruct (p s) as [v1 r1| |] eqn:E; [|discriminate..].
  apply Hp in E. intros H. specialize (Hk v1 r1). rewrite H in Hk. lia.
Qed.

Lemma consuming_pbind_r (p : parser A) (k : A → parser B) :
  safe p → (∀ a, consuming (k a)) → consuming (pbind p k).
Proof.
  intros Hp Hk s v r. unfold pbind. specialize (Hp s).
  destruct (p s) as [v1 r1| |]; [|discriminate..].
  intros H. apply Hk in H. lia.
Qed.

Lemma safe_alt (p q : parser A) : safe p → safe q → safe (alt p q).
Proof.
  intros Hp Hq s. unfold alt. specialize (Hp s). specialize (Hq s).
  destruct (p s); assumption.
Qed.

Lemma consuming_alt (p q : parser A) :
  consuming p → consuming q → consuming (alt p q).
Proof.
  intros Hp Hq s v r. unfold alt.
  destruct (p s) eqn:E; [rewrite <- E; apply Hp | apply Hq | discriminate].
Qed.

(** With more fuel than input, the loop of [many] on a parser that
    consumes input ends before the fuel does. *)
Lemma many_fuel_safe (p : parser A) :
  safe p → consuming p →
  ∀ (fuel : nat) (s : list ascii),
    (length s < fuel)%nat →
    match many_fuel fuel p s with
    | Success _ r => (length r ≤ length s)%nat
    | Failure => True
    | OutOfFuel => False
    end.
Proof.
  intros Hp Hc. induction fuel as [|fuel IH]; intros s Hs; [lia|].
  cbn [many_fuel]. specialize (Hp s).
  destruct (p s) as [v r| |] eqn:E; [|lia | exact Hp].
  apply Hc in E. specialize (IH r ltac:(lia)).
  destruct (many_fuel fuel p r); [lia | exact Logic.I | exact IH].
Qed.

Lemma safe_many (p : parser A) : safe p → consuming p → safe (many p).
Proof. intros Hp Hc s. apply many_fuel_safe; [assumption..|lia]. Qed.

End ParserFacts.

(** Unfolds the derived combinators to [pbind], [alt], [many] and the
    primitive parsers, and closes [safe] and [consuming] goals. *)
Ltac parsy_safe :=
  cbv [pmap seq2 seq3 then_ skip result_ add add_list times times_inf
       at_least sep_by Nat.sub];
  repeat first
    [ apply safe_success | apply safe_string_ | apply safe_regex_plus
    | apply safe_regex_star | apply safe_regex_one | apply safe_eof
    | apply consuming_string_ | apply consuming_regex_plus
    | apply safe_alt | apply consuming_alt
    | apply safe_many
    | apply safe_pbind; [|intros ?]
    | apply consuming_pbind; [|intros ?]
    | assumption ].





Lemma safe_validate_grammars :
  safe ur_form ∧ safe sr_form ∧ safe Validate.gloss.
Proof.
  assert (safe (alt ur_proc form_seg) ∧ consuming (alt ur_proc form_seg))
    as [Hu1 Hu2] by (unfold ur_proc, form_seg; split; parsy_safe).
  assert (safe (alt sr_proc form_seg) ∧ consuming (alt sr_proc form_seg))
    as [Hs1 Hs2] by (unfold sr_proc, form_seg; split; parsy_safe).
  assert (safe gloss_proc ∧ consuming gloss_proc) as [Hg1 Hg2].
  { unfold gloss_proc, gloss_proc_qualified, gloss_proc_unqualified.
    split; parsy_safe. }
  repeat split.
  - unfold ur_form, ur_morph, ur_suffix, ur_enclitic, ur_prefix, ur_proclitic,
      ur_root, ur_morph_core. parsy_safe.
  - unfold sr_form, sr_morph, sr_suffix, sr_enclitic, sr_prefix, sr_proclitic,
      sr_root, sr_morph_core. parsy_safe.
  - unfold Validate.gloss, gloss_morph, gloss_morph_suffix,
      gloss_morph_enclitic, gloss_morph_prefix, gloss_morph_proclitic,
      gloss_morph_root, gloss_morph_core, gloss_seg. parsy_safe.
Qed.

(** ** What the gloss parser returns *)

Section Returns.
Context {A B : Type}.

Lemma returns_pbind (p : parser A) (k : A → parser B)
    (P : A → Prop) (Q : B → Prop) :
  returns p P → (∀ a, P a → returns (k a) Q) → returns (pbind p k) Q.
Proof.
  intros Hp Hk s v r. unfold pbind.
  destruct (p s) as [a r1| |] eqn:E; [|discriminate..].
  apply Hp in E. apply (Hk a E).
Qed.

Lemma returns_success (v : A) (P : A → Prop) : P v → returns (success v) P.
Proof. intros H s v' r [= <- _]. exact H. Qed.

Lemma returns_alt (p q : parser A) (P : A → Prop) :
  returns p P → returns q P → returns (alt p q) P.
Proof.
  intros Hp Hq s v r. unfold alt.
  destruct (p s) eqn:E; [rewrite <- E; apply Hp | apply Hq | discriminate].
Qed.

Lemma returns_any (p : parser A) : returns p (fun _ => True).
Proof. intros s v r _. exact Logic.I. Qed.

Lemma returns_many (p : parser A) (P : A → Prop) :
  returns p P → returns (many p) (Forall P).
Proof.
  intros Hp s. unfold many. generalize (S (length s)) as fuel.
  intros fuel. revert s.
  induction fuel as [|fuel IH]; intros s v r; cbn [many_fuel];
    [discriminate|].
  destruct (p s) as [a r1| |] eqn:E; [| |discriminate].
  - destruct (many_fuel fuel p r1) as [vs r2| |] eqn:E2; [|discriminate..].
    intros [= <- _]. constructor; [apply (Hp _ _ _ E) | apply (IH _ _ _ E2)].
  - intros [= <- _]. constructor.
Qed.

End Returns.

Lemma returns_weaken {A} (p : parser A) (P Q : A → Prop) :
  returns p P → (∀ a, P a → Q a) → returns p Q.
Proof. intros Hp H s v r E. apply H, (Hp _ _ _ E). Qed.

Lemma returns_pmap {A B} (f : A → B) (p : parser A) (P : A → Prop)
    (Q : B → Prop) :
  returns p P → (∀ a, P a → Q (f a)) → returns (pmap f p) Q.
Proof.
  intros Hp H. unfold pmap. eapply returns_pbind; [exact Hp|].
  intros a Ha. apply returns_success, H, Ha.
Qed.

Lemma returns_seq2 {A B} (p : parser A) (q : parser B) (P : A → Prop)
    (Q : B → Prop) :
  returns p P → returns q Q → returns (seq2 p q) (fun x => P x.1 ∧ Q x.2).
Proof.
  intros Hp Hq. unfold seq2. eapply returns_pbind; [exact Hp|].
  intros a Ha. eapply returns_pbind; [exact Hq|].
  intros b Hb. apply returns_success. now split.
Qed.

Lemma returns_then_ {A B} (p : parser A) (q : parser B) (Q : B → Prop) :
  returns q Q → returns (then_ p q) Q.
Proof.
  intros Hq. unfold then_. eapply returns_pbind; [apply returns_any|].
  intros _ _. exact Hq.
Qed.

Lemma returns_skip {A B} (p : parser A) (q : parser B) (P : A → Prop) :
  returns p P → returns (skip p q) P.
Proof.
  intros Hp. unfold skip. eapply returns_pbind; [exact Hp|].
  intros a Ha. eapply returns_pbind; [apply returns_any|].
  intros _ _. apply returns_success, Ha.
Qed.

Lemma returns_add_list {A} (p q : parser (list A)) (P : A → Prop) :
  returns p (Forall P) → returns q (Forall P) →
  returns (add_list p q) (Forall P).
Proof.
  intros Hp Hq. unfold add_list.
  eapply returns_pmap; [apply (returns_seq2 _ _ _ _ Hp Hq)|].
  intros [a b] [Ha Hb]. apply Forall_app. now split.
Qed.

Lemma returns_times {A} (n : nat) (p : parser A) (P : A → Prop) :
  returns p P → returns (times n p) (Forall P).
Proof.
  intros Hp. induction n as [|n IH]; cbn [times].
  - apply returns_success. constructor.
  - eapply returns_pbind; [exact Hp|]. intros a Ha.
    eapply returns_pmap; [exact IH|]. intros l Hl. now constructor.
Qed.

Lemma returns_sep_by {A B} (p : parser A) (sep : parser B) (min : nat)
    (P : A → Prop) :
  returns p P → returns (sep_by p sep min) (Forall P).
Proof.
  intros Hp.
  assert (returns (add_list (times 1 p) (times_inf (min - 1) (then_ sep p)))
            (Forall P)) as H.
  { apply returns_add_list; [now apply returns_times|].
    unfold times_inf. apply returns_add_list.
    - now apply returns_times, returns_then_.
    - now apply returns_many, returns_then_. }
  unfold sep_by. destruct min; [|exact H].
  apply returns_alt; [exact H|]. apply returns_success. constructor.
Qed.







(** ** The keys of the binder *)





(** ** The boundary character is never bound *)






Example merged_form_gloss_boundary :
  merged_form_gloss "a b" "x y" = Raise (KeyError (VInt (-1))).
Proof. vm_compute. reflexivity. Qed.

Example merged_form_gloss_affix :
  merged_form_gloss "a- b" "x- y"
  = Ok [mkCharacter "a" "L" "S" 0 "x"; mkCharacter "b" "L" "S" 1 "y"].
Proof. vm_compute. reflexivity. Qed.

(** ** More on single morphs *)

Lemma set_last_tag_snoc (t : string) (cs : list Character) (c : Character) :
  set_last_tag t (cs ++ [c]) = cs ++ [with_tag t c].
Proof.
  induction cs as [|a cs IH]; [reflexivity|].
  change ((a :: cs) ++ [c]) with (a :: (cs ++ [c])).
  destruct (cs ++ [c]) as [|b l] eqn:E.
  - destruct cs; discriminate.
  - change (set_last_tag t (a :: b :: l)) with (a :: set_last_tag t (b :: l)).
    rewrite IH. reflexivity.
Qed.

Lemma set_last_tag_length (t : string) (cs : list Character) :
  length (set_last_tag t cs) = length cs.
Proof.
  rewrite <- (length_map span (set_last_tag t cs)), set_last_tag_spans.
  apply length_map.
Qed.

Lemma set_last_tag_nil (t : string) (cs : list Character) :
  set_last_tag t cs = [] ↔ cs = [].
Proof.
  pose proof (set_last_tag_length t cs) as H.
  split; intros E.
  - rewrite E in H. destruct cs; [reflexivity | discriminate].
  - subst cs. reflexivity.
Qed.

Lemma neg_index_last {A} (l : list A) : neg_index l 1 = last l.
Proof.
  unfold neg_index. destruct l as [|x l] using rev_ind; [reflexivity|].
  rewrite length_app, last_snoc. simpl length.
  destruct (1 <=? length l + 1)%nat eqn:E; [|apply Nat.leb_gt in E; lia].
  replace (length l + 1 - 1)%nat with (length l) by lia.
  apply list_lookup_middle. reflexivity.
Qed.

Lemma neg_index_nil {A} (l : list A) : neg_index l 1 = None ↔ l = [].
Proof. rewrite neg_index_last. apply last_None. Qed.

(** The cases of [match c] in [morph_step]. *)
Ltac step_cases c :=
  destruct (Ascii.eqb_spec c " ") as [->|?];
  [|destruct (Ascii.eqb_spec c "-") as [->|?];
    [|destruct (Ascii.eqb_spec c "{") as [->|?];
      [|destruct (Ascii.eqb_spec c ">") as [->|?];
        [|destruct (Ascii.eqb_spec c "}") as [->|?]]]]].

Lemma is_literal_other (c : ascii) :
  c ≠ " "%char → c ≠ "-"%char → c ≠ "{"%char → c ≠ ">"%char → c ≠ "}"%char →
  is_literal c = true.
Proof.
  intros. unfold is_literal.
  repeat match goal with
         | |- context [Ascii.eqb c ?d] =>
             destruct (Ascii.eqb_spec c d); [contradiction|]
         end.
  reflexivity.
Qed.

(** The new list of characters after one step: unchanged, retagged at its
    end by a [}], or extended by the character read. *)
Lemma morph_step_chars (len i : Z) (c : ascii) (st st' : MorphState) :
  morph_step len st (i, c) = Ok st' →
  (is_literal c = false ∧ c ≠ "}"%char ∧ st_chars st' = st_chars st)
  ∨ (c = "}"%char ∧ st_chars st ≠ []
     ∧ (st_chars st' = st_chars st
        ∨ st_chars st' = set_last_tag "L" (st_chars st)
        ∨ st_chars st' = set_last_tag "U" (set_last_tag "L" (st_chars st))))
  ∨ (is_literal c = true
     ∧ st_chars st'
       = st_chars st ++ [mkCharacter c (st_tag st) (st_op st) (st_span st) ""]).
Proof.
  destruct st as [g cs matrix sp tg o typ]. unfold morph_step.
  step_cases c; cbn [Ascii.eqb Bool.eqb next st_chars st_tag st_op st_span].
  - intros [= <-]. left. now repeat split.
  - destruct (i =? 0); [|destruct (i =? len - 1)]; intros [= <-];
      left; now repeat split.
  - intros [= <-]. left. now repeat split.
  - intros [= <-]. left. now repeat split.
  - destruct (neg_index cs 1) as [lc|] eqn:E; [|discriminate].
    assert (cs ≠ []) as Hne.
    { intros ->. discriminate. }
    intros [= <-]. right. left. cbn [st_chars].
    repeat split; [assumption|].
    destruct (String.eqb (op lc) "A"); [|now left].
    right.
    match goal with |- context [if ?b then _ else _] => destruct b end;
      [now right | now left].
  - intros [= <-]. right. right.
    split; [now apply is_literal_other | reflexivity].
Qed.

(** A raising step is the [}] case on an empty list of characters. *)
Lemma morph_step_raise (len i : Z) (c : ascii) (st : MorphState) (e : exn) :
  morph_step len st (i, c) = Raise e →
  e = IndexError ∧ c = "}"%char ∧ st_chars st = [].
Proof.
  destruct st as [g cs matrix sp tg o typ]. unfold morph_step.
  step_cases c; cbn [Ascii.eqb Bool.eqb next st_chars]; try discriminate.
  - destruct (i =? 0); [|destruct (i =? len - 1)]; discriminate.
  - destruct (neg_index cs 1) as [lc|] eqn:E; [discriminate|].
    apply neg_index_nil in E. intros [= <-]. now repeat split.
Qed.

Lemma morph_step_ok_or_nil (len i : Z) (c : ascii) (st : MorphState) :
  (∃ st', morph_step len st (i, c) = Ok st')
  ∨ (morph_step len st (i, c) = Raise IndexError
     ∧ c = "}"%char ∧ st_chars st = []).
Proof.
  destruct (morph_step len st (i, c)) as [st'|e] eqn:E; [left; eauto|].
  right. destruct (morph_step_raise _ _ _ _ _ E) as (-> & -> & H). eauto.
Qed.

Lemma is_literal_not_close (c : ascii) :
  is_literal c = true → Ascii.eqb c "}" = false.
Proof.
  unfold is_literal. destruct (Ascii.eqb c "}"); [|reflexivity].
  rewrite !orb_true_r. discriminate.
Qed.

Lemma morph_loop_started (len : Z) (l : list ascii) :
  ∀ (k : Z) (st : MorphState),
    match foldM (morph_step len) (enumerate_from k l) st with
    | Ok st' =>
        st_chars st' ≠ [] ↔ (st_chars st ≠ [] ∨ well_started l = true)
    | Raise e =>
        e = IndexError ∧ st_chars st = [] ∧ well_started l = false
    end.
Proof.
  induction l as [|c l IH]; intros k st; cbn [foldM enumerate_from].
  - simpl. split; [now left | intros [H|H]; [assumption | discriminate]].
  - destruct (morph_step_ok_or_nil len k c st) as [[st1 E]|(E & -> & Hnil)];
      rewrite E; cbn [bind].
    + specialize (IH (k + 1) st1).
      destruct (morph_step_chars _ _ _ _ _ E)
        as [(Hl & Hc & Hcs)|[(-> & Hne & Hcs)|(Hl & Hcs)]].
      * assert (well_started (c :: l) = well_started l) as ->.
        { simpl. rewrite Hl.
          destruct (Ascii.eqb_spec c "}"); [contradiction | reflexivity]. }
        rewrite Hcs in IH. exact IH.
      * assert (st_chars st1 ≠ []) as Hne1.
        { destruct Hcs as [->|[->| ->]]; [assumption|..];
            rewrite ?set_last_tag_nil; assumption. }
        destruct (foldM _ _ st1) as [st'|e].
        -- split; [intros _; now left | intros _; apply IH; now left].
        -- destruct IH as (_ & H & _). contradiction.
      * assert (st_chars st1 ≠ []) as Hne1.
        { rewrite Hcs. destruct (st_chars st); discriminate. }
        assert (well_started (c :: l) = true) as ->.
        { simpl. now rewrite (is_literal_not_close _ Hl), Hl. }
        destruct (foldM _ _ st1) as [st'|e].
        -- split; [intros _; now right | intros _; apply IH; now left].
        -- destruct IH as (_ & H & _). contradiction.
    + now repeat split.
Qed.

Lemma parse_ur_morph_chars_started (m : list ascii) :
  (well_started m = true →
   ∃ typ chars, parse_ur_morph_chars m = Ok (typ, chars) ∧ chars ≠ [])
  ∧ (well_started m = false → parse_ur_morph_chars m = Raise IndexError).
Proof.
  unfold parse_ur_morph_chars, mbind, result_bind.
  pose proof (morph_loop_started (Z.of_nat (length m)) m 0 morph_init) as H.
  unfold enumerate.
  destruct (foldM _ _ morph_init) as [st|e]; cbn [bind].
  - change (st_chars morph_init) with (@nil Character) in H.
    split; intros Hw.
    + assert (st_chars st ≠ []) as Hne by (apply H; now right).
      destruct (neg_index (st_chars st) 1) eqn:E;
        [|apply neg_index_nil in E; contradiction].
      eexists _, _. split; [reflexivity|]. now rewrite set_last_tag_nil.
    + assert (st_chars st = []) as ->.
      { destruct (st_chars st) eqn:Ec; [reflexivity|].
        assert (@nil Character ≠ [] ∨ well_started m = true) as [Hc|Hc]
          by (apply H; discriminate); [contradiction | congruence]. }
      reflexivity.
  - destruct H as (-> & _ & Hw). split; intros Hw'; [congruence | reflexivity].
Qed.

(** X1: [parse_ur_morph] returns exactly on the morphs that have an emitted
    character and no [}] before the first one, and raises an [IndexError]
    on all others; a returned list of characters is never empty. *)
Theorem X1_parse_ur_morph_succeeds_iff (m : list ascii) :
  (well_started m = true →
   ∃ typ chars, parse_ur_morph_chars m = Ok (typ, chars) ∧ chars ≠ [])
  ∧ (well_started m = false → parse_ur_morph_chars m = Raise IndexError).
Proof. exact (parse_ur_morph_chars_started m). Qed.

Lemma X1_parse_ur_morph_succeeds_iff_witness :
  (∃ typ chars,
     parse_ur_morph_chars (list_ascii_of_string "-{a>b}") = Ok (typ, chars)
     ∧ chars ≠ [])
  ∧ parse_ur_morph_chars (list_ascii_of_string "{}a") = Raise IndexError.
Proof.
  split.
  - apply (X1_parse_ur_morph_succeeds_iff (list_ascii_of_string "-{a>b}")).
    reflexivity.
  - apply (X1_parse_ur_morph_succeeds_iff (list_ascii_of_string "{}a")).
    reflexivity.
Defined.

Lemma mapM_all_or_first {A B} (f : A → result B) (ok : A → bool) (e : exn)
    (l : list A) :
  (∀ x, ok x = true → ∃ y, f x = Ok y) →
  (∀ x, ok x = false → f x = Raise e) →
  (forallb ok l = true → ∃ ys, mapM f l = Ok ys)
  ∧ (forallb ok l = false → mapM f l = Raise e).
Proof.
  intros Hok Hno. induction l as [|x l [IH1 IH2]]; cbn [forallb mapM].
  - split; [eauto | discriminate].
  - destruct (ok x) eqn:E; cbn [andb].
    + destruct (Hok x E) as [y ->]. cbn [bind]. split; intros H.
      * destruct (IH1 H) as [ys ->]. cbn [bind]. eauto.
      * rewrite (IH2 H). reflexivity.
    + rewrite (Hno x E). cbn [bind]. split; [discriminate | reflexivity].
Qed.

(** X2: [parse_ur] returns exactly on the lines all of whose morphs (the
    pieces between single spaces) have an emitted character and no [}]
    before the first one; on every other line, such as one with a leading,
    trailing or doubled space, it raises an [IndexError]. *)
Theorem X2_parse_ur_succeeds_iff (ur : string) :
  (forallb well_started (split " " (list_ascii_of_string ur)) = true →
   ∃ cs, parse_ur ur = Ok cs)
  ∧ (forallb well_started (split " " (list_ascii_of_string ur)) = false →
     parse_ur ur = Raise IndexError).
Proof.
  unfold parse_ur, parse_ur_chars, mbind, result_bind.
  destruct (mapM_all_or_first parse_ur_morph_chars well_started IndexError
              (split " " (list_ascii_of_string ur))) as [H1 H2].
  - intros m Hm.
    destruct (proj1 (parse_ur_morph_chars_started m) Hm)
      as (typ & chars & -> & _).
    eauto.
  - intros m Hm. apply (parse_ur_morph_chars_started m), Hm.
  - split; intros H.
    + destruct (H1 H) as [ys ->]. cbn [bind]. eauto.
    + rewrite (H2 H). reflexivity.
Qed.

Lemma X2_parse_ur_succeeds_iff_witness :
  (∃ cs, parse_ur "ab -c" = Ok cs)
  ∧ parse_ur "ab  c" = Raise IndexError.
Proof.
  split.
  - apply (X2_parse_ur_succeeds_iff "ab -c"). reflexivity.
  - apply (X2_parse_ur_succeeds_iff "ab  c"). reflexivity.
Defined.

Lemma set_last_tag_graphemes (t : string) (cs : list Character) :
  map char (set_last_tag t cs) = map char cs.
Proof.
  destruct cs as [|c cs _] using rev_ind; [reflexivity|].
  rewrite set_last_tag_snoc, !map_app. reflexivity.
Qed.

Lemma morph_loop_graphemes (len : Z) (l : list ascii) :
  ∀ (k : Z) (st st' : MorphState),
    foldM (morph_step len) (enumerate_from k l) st = Ok st' →
    map char (st_chars st') = map char (st_chars st) ++ List.filter is_literal l.
Proof.
  induction l as [|c l IH]; intros k st st'; cbn [foldM enumerate_from].
  - intros [= <-]. simpl. now rewrite app_nil_r.
  - destruct (morph_step len st (k, c)) as [st1|e] eqn:E; cbn [bind];
      [|discriminate].
    intros H. rewrite (IH _ _ _ H). cbn [List.filter].
    destruct (morph_step_chars _ _ _ _ _ E)
      as [(Hl & _ & ->)|[(-> & _ & Hcs)|(Hl & ->)]].
    + now rewrite Hl.
    + simpl.
      destruct Hcs as [->|[->| ->]];
        now rewrite ?set_last_tag_graphemes.
    + rewrite Hl, map_app, <- app_assoc. reflexivity.
Qed.

Lemma parse_ur_morph_chars_graphemes (m : list ascii) typ chars :
  parse_ur_morph_chars m = Ok (typ, chars) →
  map char chars = List.filter is_literal m.
Proof.
  unfold parse_ur_morph_chars, mbind, result_bind, enumerate.
  destruct (foldM _ _ morph_init) as [st|e] eqn:E; cbn [bind]; [|discriminate].
  destruct (neg_index (st_chars st) 1); [|discriminate].
  intros [= _ <-]. rewrite set_last_tag_graphemes.
  apply (morph_loop_graphemes _ _ _ _ _ E).
Qed.

(** X3: the characters of a parsed morph spell, in order, the characters of
    the morph other than the space, [-], [{], [>] and [}]: none is dropped,
    added or moved, whatever processes the morph has. *)
Theorem X3_morph_graphemes (m : list ascii) typ chars :
  parse_ur_morph_chars m = Ok (typ, chars) →
  map char chars = List.filter is_literal m
  ∧ length chars = length (List.filter is_literal m).
Proof.
  intros H. apply parse_ur_morph_chars_graphemes in H.
  split; [assumption|]. rewrite <- H. now rewrite length_map.
Qed.

Lemma X3_morph_graphemes_witness :
  map char [ mkCharacter "a" "B" "S" 0 ""; mkCharacter "b" "I" "D" 0 "";
             mkCharacter "c" "U" "A" 1 ""; mkCharacter "d" "L" "S" 0 "" ]
  = List.filter is_literal (list_ascii_of_string "a{b>c}d")
  ∧ length [ mkCharacter "a" "B" "S" 0 ""; mkCharacter "b" "I" "D" 0 "";
             mkCharacter "c" "U" "A" 1 ""; mkCharacter "d" "L" "S" 0 "" ]
    = length (List.filter is_literal (list_ascii_of_string "a{b>c}d")).
Proof.
  apply (X3_morph_graphemes (list_ascii_of_string "a{b>c}d") "root").
  vm_compute. reflexivity.
Defined.

Lemma char_ok_with_tag (t : string) (c : Character) :
  t = "L" ∨ t = "U" → char_ok c = true → char_ok (with_tag t c) = true.
Proof.
  unfold char_ok. cbn [tag op Bilou.gloss with_tag].
  intros [-> | ->] H; apply andb_true_iff in H as [H1 H2];
    apply andb_true_iff in H1 as [_ H1]; now rewrite H1, H2.
Qed.

Lemma set_last_tag_ok (t : string) (cs : list Character) :
  t = "L" ∨ t = "U" →
  forallb char_ok cs = true → forallb char_ok (set_last_tag t cs) = true.
Proof.
  intros Ht. destruct cs as [|c cs _] using rev_ind; [trivial|].
  rewrite set_last_tag_snoc, !forallb_app. cbn [forallb].
  intros H. apply andb_true_iff in H as [H1 H2].
  rewrite andb_true_r in H2.
  now rewrite H1, (char_ok_with_tag t c Ht H2).
Qed.

Lemma morph_step_state_ok (len i : Z) (c : ascii) (st st' : MorphState) :
  state_ok st = true → morph_step len st (i, c) = Ok st' →
  state_ok st' = true.
Proof.
  destruct st as [g cs matrix sp tg o typ]. unfold morph_step, state_ok.
  cbn [st_tag st_op st_chars]. intros H.
  apply andb_true_iff in H as [H Hcs]. apply andb_true_iff in H as [Ht Ho].
  step_cases c; cbn [Ascii.eqb Bool.eqb next].
  - intros [= <-]. cbn [st_tag st_op st_chars]. now rewrite Hcs.
  - destruct (i =? 0); [|destruct (i =? len - 1)]; intros [= <-];
      cbn [st_tag st_op st_chars]; now rewrite Ht, Ho, Hcs.
  - intros [= <-]. cbn [st_tag st_op st_chars]. now rewrite Ht, Hcs.
  - intros [= <-]. cbn [st_tag st_op st_chars]. now rewrite Hcs.
  - destruct (neg_index cs 1) as [lc|]; [|discriminate].
    intros [= <-]. cbn [st_tag st_op st_chars]. rewrite Ht. cbn [andb].
    destruct (String.eqb (op lc) "A"); [|assumption].
    match goal with |- context [if ?b then _ else _] => destruct b end;
      repeat apply set_last_tag_ok; auto.
  - intros [= <-]. cbn [st_tag st_op st_chars].
    rewrite forallb_app, Hcs, Ho. cbn [forallb andb].
    unfold char_ok. cbn [tag op Bilou.gloss]. rewrite Ht, Ho.
    apply orb_true_iff in Ht as [Ht|Ht]; apply String.eqb_eq in Ht; subst tg;
      reflexivity.
Qed.

Lemma morph_loop_state_ok (len : Z) (l : list ascii) :
  ∀ (k : Z) (st st' : MorphState),
    state_ok st = true →
    foldM (morph_step len) (enumerate_from k l) st = Ok st' →
    state_ok st' = true.
Proof.
  induction l as [|c l IH]; intros k st st' Hst; cbn [foldM enumerate_from].
  - now intros [= <-].
  - destruct (morph_step len st (k, c)) as [st1|e] eqn:E; cbn [bind];
      [|discriminate].
    apply IH. apply (morph_step_state_ok _ _ _ _ _ Hst E).
Qed.

Lemma parse_ur_morph_chars_ok (m : list ascii) typ chars :
  parse_ur_morph_chars m = Ok (typ, chars) →
  forallb char_ok chars = true
  ∧ ∃ c, last chars = Some c ∧ tag c = "L".
Proof.
  unfold parse_ur_morph_chars, mbind, result_bind, enumerate.
  destruct (foldM _ _ morph_init) as [st|e] eqn:E; cbn [bind]; [|discriminate].
  destruct (neg_index (st_chars st) 1) as [lc|] eqn:El; [|discriminate].
  intros [= _ <-].
  pose proof (morph_loop_state_ok _ _ _ morph_init st eq_refl E) as H.
  unfold state_ok in H. apply andb_true_iff in H as [_ H].
  split; [apply set_last_tag_ok; auto|].
  rewrite neg_index_last in El.
  destruct (st_chars st) as [|x cs _] using rev_ind; [discriminate|].
  rewrite set_last_tag_snoc, last_snoc. eauto.
Qed.

(** X4: every character of a parsed morph has a tag among B, I, L and U, an
    operation among S, D and A, and an empty gloss, and the last character
    is tagged L: the tag O is never given inside a morph. *)
Theorem X4_morph_tags (m : list ascii) typ chars :
  parse_ur_morph_chars m = Ok (typ, chars) →
  forallb char_ok chars = true
  ∧ ∃ c, last chars = Some c ∧ tag c = "L".
Proof. apply parse_ur_morph_chars_ok. Qed.

Lemma X4_morph_tags_witness :
  forallb char_ok
    [ mkCharacter "a" "B" "S" 0 ""; mkCharacter "b" "I" "D" 0 "";
      mkCharacter "c" "U" "A" 1 ""; mkCharacter "d" "L" "S" 0 "" ] = true
  ∧ ∃ c, last [ mkCharacter "a" "B" "S" 0 ""; mkCharacter "b" "I" "D" 0 "";
                mkCharacter "c" "U" "A" 1 ""; mkCharacter "d" "L" "S" 0 "" ]
         = Some c ∧ tag c = "L".
Proof.
  apply (X4_morph_tags (list_ascii_of_string "a{b>c}d") "root").
  vm_compute. reflexivity.
Defined.

Lemma morph_step_type (len i : Z) (c : ascii) (st st' : MorphState) :
  morph_step len st (i, c) = Ok st' →
  st_morph_type st'
  = if Ascii.eqb c "-" then
      if i =? 0 then "suffix"
      else if i =? len - 1 then "prefix" else st_morph_type st
    else st_morph_type st.
Proof.
  destruct st as [g cs matrix sp tg o typ]. unfold morph_step.
  step_cases c; cbn [Ascii.eqb Bool.eqb next st_morph_type].
  - now intros [= <-].
  - destruct (i =? 0); [|destruct (i =? len - 1)]; now intros [= <-].
  - now intros [= <-].
  - now intros [= <-].
  - destruct (neg_index cs 1); [|discriminate]. now intros [= <-].
  - destruct (Ascii.eqb_spec c "-"); [contradiction|]. now intros [= <-].
Qed.

Lemma morph_loop_type (len : Z) (l : list ascii) :
  ∀ (k : Z) (st st' : MorphState),
    0 ≤ k → len = k + Z.of_nat (length l) →
    foldM (morph_step len) (enumerate_from k l) st = Ok st' →
    st_morph_type st'
    = if negb (len - 1 =? 0) && is_dash (last l) then "prefix"
      else if (k =? 0) && is_dash (head l) then "suffix"
      else st_morph_type st.
Proof.
  induction l as [|c l IH]; intros k st st' Hk Hlen;
    cbn [foldM enumerate_from].
  - intros [= <-]. simpl. rewrite !andb_false_r. reflexivity.
  - destruct (morph_step len st (k, c)) as [st1|e] eqn:E; cbn [bind];
      [|discriminate].
    intros H. cbn [length] in Hlen.
    rewrite (IH (k + 1) st1 st' ltac:(lia) ltac:(lia) H).
    rewrite (morph_step_type _ _ _ _ _ E).
    replace (k + 1 =? 0) with false by (symmetry; apply Z.eqb_neq; lia).
    cbn [andb head is_dash].
    destruct l as [|d l].
    + cbn [last is_dash length] in *. rewrite andb_false_r.
      replace (k =? len - 1) with true by (symmetry; apply Z.eqb_eq; lia).
      replace (len - 1 =? 0) with (k =? 0)
        by (destruct (Z.eqb_spec k 0), (Z.eqb_spec (len - 1) 0); lia).
      destruct (Ascii.eqb c "-"), (k =? 0); reflexivity.
    + change (last (c :: d :: l)) with (last (d :: l)).
      cbn [length] in Hlen.
      replace (len - 1 =? 0) with false by (symmetry; apply Z.eqb_neq; lia).
      replace (k =? len - 1) with false by (symmetry; apply Z.eqb_neq; lia).
      cbn [negb andb].
      destruct (is_dash (last (d :: l))); [reflexivity|].
      destruct (Ascii.eqb c "-"), (k =? 0); reflexivity.
Qed.

Lemma parse_ur_morph_chars_type (m : list ascii) typ chars :
  parse_ur_morph_chars m = Ok (typ, chars) → typ = morph_type_of m.
Proof.
  unfold parse_ur_morph_chars, mbind, result_bind, enumerate.
  destruct (foldM _ _ morph_init) as [st|e] eqn:E; cbn [bind]; [|discriminate].
  destruct (neg_index (st_chars st) 1); [|discriminate].
  intros [= <- _].
  rewrite (morph_loop_type (Z.of_nat (length m)) m 0 morph_init st
             ltac:(lia) ltac:(lia) E).
  unfold morph_type_of. change (st_morph_type morph_init) with "root".
  cbn [Z.eqb andb].
  replace (negb (Z.of_nat (length m) - 1 =? 0) && is_dash (last m))
    with ((2 <=? length m)%nat && is_dash (last m)); [reflexivity|].
  destruct m as [|a [|d m]]; [reflexivity | reflexivity |].
  f_equal. cbn [length].
  symmetry. apply negb_true_iff, Z.eqb_neq. lia.
Qed.

(** X5: the type of a parsed morph only depends on its two ends: it is
    "prefix" when the morph has at least two characters and ends in [-],
    otherwise "suffix" when it begins with [-], and "root" otherwise.  A
    [-] inside the morph and the clitic mark [=] have no effect, so the
    engine never returns "proclitic" or "enclitic". *)
Theorem X5_morph_type (m : list ascii) typ chars :
  parse_ur_morph_chars m = Ok (typ, chars) →
  typ = morph_type_of m
  ∧ (typ = "prefix" ∨ typ = "suffix" ∨ typ = "root").
Proof.
  intros H. apply parse_ur_morph_chars_type in H. split; [assumption|].
  subst typ. unfold morph_type_of.
  destruct (_ && _); [now left|].
  destruct (is_dash (head m)); [right; now left | right; now right].
Qed.

Lemma X5_morph_type_witness :
  "prefix" = morph_type_of (list_ascii_of_string "-a=b-")
  ∧ ("prefix" = "prefix" ∨ "prefix" = "suffix" ∨ "prefix" = "root").
Proof.
  apply (X5_morph_type (list_ascii_of_string "-a=b-") "prefix"
           [ mkCharacter "a" "B" "S" 0 ""; mkCharacter "=" "I" "S" 0 "";
             mkCharacter "b" "L" "S" 0 "" ]).
  vm_compute. reflexivity.
Defined.

(** ** More on whole lines *)

Lemma mapM_Forall2 {A B} (f : A → result B) (l : list A) :
  ∀ ys, mapM f l = Ok ys → Forall2 (fun x y => f x = Ok y) l ys.
Proof.
  induction l as [|x l IH]; intros ys; cbn [mapM].
  - intros [= <-]. constructor.
  - destruct (f x) as [y|e] eqn:E; cbn [bind]; [|discriminate].
    destruct (mapM f l) as [ys0|e]; cbn [bind]; [|discriminate].
    intros [= <-]. constructor; [assumption | now apply IH].
Qed.

(** What is known of every morph that [parse_ur_morph] returns. *)
Lemma parsed_morph_facts (m : list ascii) typ chars :
  parse_ur_morph_chars m = Ok (typ, chars) →
  chars ≠ []
  ∧ forallb char_ok chars = true
  ∧ (∃ c, last chars = Some c ∧ tag c = "L")
  ∧ Forall (fun c => 0 ≤ span c) chars
  ∧ map char chars = List.filter is_literal m.
Proof.
  intros H. repeat split.
  - destruct (well_started m) eqn:E.
    + destruct (proj1 (parse_ur_morph_chars_started m) E)
        as (typ' & chars' & H' & Hne).
      rewrite H in H'. now injection H' as <- <-.
    + rewrite (proj2 (parse_ur_morph_chars_started m) E) in H. discriminate.
  - apply (parse_ur_morph_chars_ok _ _ _ H).
  - apply (parse_ur_morph_chars_ok _ _ _ H).
  - eapply Forall_impl; [apply (parse_ur_morph_chars_range _ _ _ H)|].
    simpl. intros c Hc. lia.
  - apply (parse_ur_morph_chars_graphemes _ _ _ H).
Qed.

Lemma ur_loop_origin_fields (morphs : list (string * list Character)) :
  ∀ (k : Z) (last_typ : string) c,
    c ∈ ur_loop k last_typ morphs →
    c = space_char
    ∨ ∃ (j : nat) typ chars c0,
        morphs !! j = Some (typ, chars) ∧ c0 ∈ chars
        ∧ char c = char c0 ∧ tag c = tag c0 ∧ op c = op c0
        ∧ Bilou.gloss c = Bilou.gloss c0
        ∧ span c = span c0 + k + Z.of_nat j.
Proof.
  induction morphs as [|[typ chars] rest IH]; intros k last_typ c;
    cbn [ur_loop].
  - intros H. inversion H.
  - rewrite !elem_of_app. intros [H|[H|H]].
    + destruct (boundary last_typ typ).
      * apply list_elem_of_singleton in H. now left.
      * inversion H.
    + right. apply list_elem_of_fmap in H as (c0 & -> & H0).
      exists 0%nat, typ, chars, c0. cbn [with_span char tag op Bilou.gloss span].
      repeat split; [assumption|]. simpl. lia.
    + destruct (IH _ _ _ H)
        as [->|(j & typ' & chars' & c0 & Hj & H0 & Hc & Ht & Ho & Hg & Hs)];
        [now left|].
      right. exists (S j), typ', chars', c0. repeat split; try assumption.
      lia.
Qed.

Lemma graphemes_literal (m : list ascii) (chars : list Character) c :
  map char chars = List.filter is_literal m → c ∈ chars →
  is_literal (char c) = true.
Proof.
  intros H Hc.
  assert (In (char c) (List.filter is_literal m)) as Hin.
  { rewrite <- H. apply in_map. now apply list_elem_of_In. }
  apply filter_In in Hin. tauto.
Qed.

Lemma parse_ur_line_chars (ur : string) (cs : list Character) :
  parse_ur ur = Ok cs →
  ∀ c, c ∈ cs →
       c = space_char
       ∨ (0 ≤ span c ∧ char_ok c = true ∧ is_literal (char c) = true).
Proof.
  unfold parse_ur, parse_ur_chars, mbind, result_bind.
  destruct (mapM _ _) as [morphs|e] eqn:E; cbn [bind]; [|discriminate].
  intros [= <-] c Hc.
  destruct (ur_loop_origin_fields _ _ _ _ Hc)
    as [->|(j & typ & chars & c0 & Hj & H0 & Hch & Ht & Ho & Hg & Hs)];
    [now left|].
  right.
  destruct (mapM_lookup _ _ _ E _ _ Hj) as (m & Hm & Hp).
  destruct (parsed_morph_facts _ _ _ Hp) as (_ & Hok & _ & Hsp & Hgr).
  repeat split.
  - rewrite List.Forall_forall in Hsp.
    specialize (Hsp c0 (proj1 (list_elem_of_In _ _) H0)).
    unfold sequence in Hs. lia.
  - rewrite forallb_forall in Hok.
    specialize (Hok c0 (proj1 (list_elem_of_In _ _) H0)).
    unfold char_ok in *. now rewrite Ht, Ho, Hg.
  - rewrite Hch. apply (graphemes_literal _ _ _ Hgr H0).
Qed.

(** X6: a character of a parsed line is the boundary character, or it has
    a span id that is not negative, a tag among B, I, L and U and a
    grapheme other than the space, [-], [{], [>] and [}]; so the boundary
    characters of a line are exactly its characters with span -1, exactly
    those tagged O, and exactly those whose grapheme is a space. *)
Theorem X6_boundary_recognised (ur : string) (cs : list Character) :
  parse_ur ur = Ok cs →
  ∀ c, c ∈ cs →
       (c = space_char
        ∨ (0 ≤ span c ∧ char_ok c = true ∧ is_literal (char c) = true))
       ∧ (span c = -1 ↔ c = space_char)
       ∧ (tag c = "O" ↔ c = space_char)
       ∧ (char c = " "%char ↔ c = space_char).
Proof.
  intros H c Hc.
  destruct (parse_ur_line_chars _ _ H c Hc) as [->|(Hs & Hok & Hl)].
  - split; [now left|]. now repeat split.
  - split; [right; now repeat split|].
    repeat split; intros E; try (subst c; discriminate).
    + lia.
    + unfold char_ok in Hok. rewrite E in Hok. discriminate.
    + rewrite E in Hl. discriminate.
Qed.

Lemma X6_boundary_recognised_witness :
  (mkCharacter "b" "L" "S" 1 "" = space_char
   ∨ (0 ≤ span (mkCharacter "b" "L" "S" 1 "")
      ∧ char_ok (mkCharacter "b" "L" "S" 1 "") = true
      ∧ is_literal (char (mkCharacter "b" "L" "S" 1 "")) = true))
  ∧ (span (mkCharacter "b" "L" "S" 1 "") = -1
     ↔ mkCharacter "b" "L" "S" 1 "" = space_char)
  ∧ (tag (mkCharacter "b" "L" "S" 1 "") = "O"
     ↔ mkCharacter "b" "L" "S" 1 "" = space_char)
  ∧ (char (mkCharacter "b" "L" "S" 1 "") = " "%char
     ↔ mkCharacter "b" "L" "S" 1 "" = space_char).
Proof.
  apply (X6_boundary_recognised "a b"
           [mkCharacter "a" "L" "S" 0 ""; space_char;
            mkCharacter "b" "L" "S" 1 ""]).
  - vm_compute. reflexivity.
  - do 2 right. left.
Defined.

Lemma mapM_Forall {A B} (f : A → result B) (P : B → Prop) (l : list A) :
  (∀ x y, f x = Ok y → P y) →
  ∀ ys, mapM f l = Ok ys → Forall P ys.
Proof.
  intros HP ys H. apply mapM_Forall2 in H.
  induction H as [|x y l ys Hxy _ IH]; constructor; eauto.
Qed.

Lemma split_nonempty (sep : ascii) (s : list ascii) : split sep s ≠ [].
Proof.
  destruct s as [|c s]; simpl; [discriminate|].
  destruct (Ascii.eqb c sep); [discriminate|].
  destruct (split sep s); discriminate.
Qed.

Lemma ur_loop_last (morphs : list (string * list Character)) :
  morphs ≠ [] →
  Forall (fun m : string * list Character =>
            ∃ c, last m.2 = Some c ∧ tag c = "L") morphs →
  ∀ (k : Z) (last_typ : string),
    ∃ c, last (ur_loop k last_typ morphs) = Some c ∧ tag c = "L".
Proof.
  intros Hne H. induction H as [|[typ chars] rest (c & Hc & Ht) Hrest IH];
    [contradiction|].
  intros k last_typ. cbn [ur_loop]. rewrite !last_app.
  destruct rest as [|m rest].
  - cbn [ur_loop last]. simpl in Hc.
    apply last_Some in Hc as [init ->].
    rewrite map_app. cbn [map]. rewrite last_snoc.
    eexists. split; [reflexivity | exact Ht].
  - destruct (IH ltac:(discriminate) (k + 1) typ) as (cl & -> & Hl). eauto.
Qed.

Lemma boundary_after_prefix (typ : string) : boundary "prefix" typ = false.
Proof. reflexivity. Qed.

(** X7: a parsed line is never empty; it begins with a character of its
    first morph, not with a boundary character, and it ends with a
    character tagged L.  Boundary characters only stand between morphs. *)
Theorem X7_line_ends (ur : string) (cs : list Character) :
  parse_ur ur = Ok cs →
  ∃ c0 cl, head cs = Some c0 ∧ c0 ≠ space_char
           ∧ last cs = Some cl ∧ tag cl = "L" ∧ cl ≠ space_char.
Proof.
  unfold parse_ur, parse_ur_chars, mbind, result_bind.
  destruct (mapM _ _) as [morphs|e] eqn:E; cbn [bind]; [|discriminate].
  intros [= <-].
  assert (Forall (fun m : string * list Character =>
                    m.2 ≠ [] ∧ forallb char_ok m.2 = true
                    ∧ ∃ c, last m.2 = Some c ∧ tag c = "L") morphs) as Hall.
  { eapply mapM_Forall; [|exact E]. intros m [typ chars] Hp.
    destruct (parsed_morph_facts _ _ _ Hp) as (H1 & H2 & H3 & _). auto. }
  assert (morphs ≠ []) as Hne.
  { pose proof (split_nonempty " " (list_ascii_of_string ur)) as Hs.
    apply mapM_Forall2 in E. destruct E; [contradiction | discriminate]. }
  destruct (ur_loop_last morphs Hne) with (k := sequence)
    (last_typ := "prefix") as (cl & Hl & Ht).
  { eapply Forall_impl; [exact Hall|]. simpl. tauto. }
  destruct morphs as [|[typ chars] rest]; [contradiction|].
  inversion Hall as [|? ? (Hc & Hok & _) _]; subst. simpl in Hc, Hok.
  destruct chars as [|x chars]; [contradiction|].
  exists (with_span (span x + sequence) x), cl.
  split; [cbn [ur_loop]; rewrite boundary_after_prefix; reflexivity|].
  split; [|split; [assumption|split; [assumption|]]].
  - intros Heq. apply (f_equal tag) in Heq. cbn [with_span tag space_char] in Heq.
    cbn [forallb] in Hok. apply andb_true_iff in Hok as [Hok _].
    unfold char_ok in Hok. rewrite Heq in Hok. discriminate.
  - intros ->. discriminate.
Qed.

Lemma X7_line_ends_witness :
  ∃ c0 cl,
    head [mkCharacter "a" "L" "S" 0 ""; space_char;
          mkCharacter "b" "L" "S" 1 ""] = Some c0
    ∧ c0 ≠ space_char
    ∧ last [mkCharacter "a" "L" "S" 0 ""; space_char;
            mkCharacter "b" "L" "S" 1 ""] = Some cl
    ∧ tag cl = "L" ∧ cl ≠ space_char.
Proof.
  apply (X7_line_ends "a b"). vm_compute. reflexivity.
Defined.

Lemma filter_literal_split (s : list ascii) :
  List.filter is_literal s
  = concat (map (List.filter is_literal) (split " " s)).
Proof.
  induction s as [|c s IH]; [reflexivity|].
  cbn [split]. destruct (Ascii.eqb_spec c " ") as [->|Hc].
  - cbn [map concat List.filter]. exact IH.
  - pose proof (split_nonempty " " s) as Hne.
    destruct (split " " s) as [|w ws]; [contradiction|].
    cbn [map concat List.filter] in *. rewrite IH.
    destruct (is_literal c); reflexivity.
Qed.

Lemma filter_not_space_literal (l : list ascii) :
  List.filter (fun a => negb (Ascii.eqb a " ")) (List.filter is_literal l)
  = List.filter is_literal l.
Proof.
  induction l as [|c l IH]; [reflexivity|].
  cbn [List.filter]. destruct (is_literal c) eqn:E; [|exact IH].
  cbn [List.filter].
  assert (Ascii.eqb c " " = false) as ->.
  { unfold is_literal in E. destruct (Ascii.eqb c " "); [discriminate|].
    reflexivity. }
  cbn [negb]. now rewrite IH.
Qed.

Lemma ur_loop_graphemes (pieces : list (list ascii))
    (morphs : list (string * list Character)) :
  Forall2 (fun m r => parse_ur_morph_chars m = Ok r) pieces morphs →
  ∀ (k : Z) (last_typ : string),
    List.filter (fun a => negb (Ascii.eqb a " "))
      (map char (ur_loop k last_typ morphs))
    = concat (map (List.filter is_literal) pieces).
Proof.
  induction 1 as [|m [typ chars] pieces morphs Hp _ IH]; intros k last_typ;
    [reflexivity|].
  cbn [ur_loop map concat]. rewrite !map_app, !List.filter_app, IH.
  rewrite map_map. cbn [with_span char].
  change (map (fun x : Character => char x) chars) with (map char chars).
  rewrite (parse_ur_morph_chars_graphemes _ _ _ Hp), filter_not_space_literal.
  destruct (boundary last_typ typ); reflexivity.
Qed.

(** X8: without its boundary characters, a parsed line spells, in order,
    the characters of the UR line other than the space, [-], [{], [>] and
    [}]: splitting into morphs and joining them again loses nothing. *)
Theorem X8_line_graphemes (ur : string) (cs : list Character) :
  parse_ur ur = Ok cs →
  List.filter (fun a => negb (Ascii.eqb a " ")) (map char cs)
  = List.filter is_literal (list_ascii_of_string ur).
Proof.
  unfold parse_ur, parse_ur_chars, mbind, result_bind.
  destruct (mapM _ _) as [morphs|e] eqn:E; cbn [bind]; [|discriminate].
  intros [= <-]. apply mapM_Forall2 in E.
  rewrite (ur_loop_graphemes _ _ E). symmetry. apply filter_literal_split.
Qed.

Lemma X8_line_graphemes_witness :
  List.filter (fun a => negb (Ascii.eqb a " "))
    (map char [ mkCharacter "a" "B" "S" 0 ""; mkCharacter "b" "I" "D" 0 "";
                mkCharacter "c" "U" "A" 1 ""; mkCharacter "d" "L" "S" 0 "";
                space_char; mkCharacter "e" "L" "S" 1 "" ])
  = List.filter is_literal (list_ascii_of_string "a{b>c}d e").
Proof.
  apply (X8_line_graphemes "a{b>c}d e"). vm_compute. reflexivity.
Defined.

(** ** Morphs without processes *)

Lemma morph_step_literal (len i : Z) (c : ascii) g cs matrix sp tg o typ :
  is_literal c = true →
  morph_step len (mkMorphState g cs matrix sp tg o typ) (i, c)
  = Ok (mkMorphState g (cs ++ [mkCharacter c tg o sp ""]) matrix sp
          (if String.eqb tg "B" then "I" else tg) o typ).
Proof.
  unfold is_literal, morph_step. intros H. apply negb_true_iff in H.
  repeat (apply orb_false_iff in H as [H ?]).
  repeat match goal with E : Ascii.eqb c _ = false |- _ => rewrite E; clear E end.
  reflexivity.
Qed.

Lemma morph_loop_inside (len : Z) (l : list ascii) g matrix sp o typ :
  Forall (fun c => is_literal c = true) l →
  ∀ (k : Z) (cs : list Character),
    foldM (morph_step len) (enumerate_from k l)
      (mkMorphState g cs matrix sp "I" o typ)
    = Ok (mkMorphState g (cs ++ map (fun a => mkCharacter a "I" o sp "") l)
            matrix sp "I" o typ).
Proof.
  induction 1 as [|c l Hc _ IH]; intros k cs; cbn [foldM enumerate_from map].
  - now rewrite app_nil_r.
  - rewrite (morph_step_literal _ _ _ _ _ _ _ _ _ _ Hc). cbn [bind].
    change (if String.eqb "I" "B" then "I" else "I") with "I".
    rewrite IH, <- app_assoc. reflexivity.
Qed.

(** X9: a morph made only of emitted characters is a root whose
    characters all have operation S and span 0; with two characters or
    more the first is tagged B, the last L and those between I, and a
    morph of one character is tagged L, not U. *)
Theorem X9_plain_morph (c d : ascii) (r : list ascii) :
  is_literal c = true → is_literal d = true →
  Forall (fun a => is_literal a = true) r →
  parse_ur_morph_chars [c] = Ok ("root", [mkCharacter c "L" "S" 0 ""])
  ∧ parse_ur_morph_chars (c :: r ++ [d])
    = Ok ("root",
          mkCharacter c "B" "S" 0 ""
          :: map (fun a => mkCharacter a "I" "S" 0 "") r
          ++ [mkCharacter d "L" "S" 0 ""]).
Proof.
  intros Hc Hd Hr. unfold parse_ur_morph_chars, mbind, result_bind, enumerate.
  split.
  - cbn [foldM enumerate_from]. unfold morph_init. cbn [next sequence].
    rewrite (morph_step_literal _ _ _ _ _ _ _ _ _ _ Hc). reflexivity.
  - cbn [foldM enumerate_from]. unfold morph_init. cbn [next sequence].
    rewrite (morph_step_literal _ _ _ _ _ _ _ _ _ _ Hc). cbn [bind].
    change (if String.eqb "B" "B" then "I" else "B") with "I".
    rewrite morph_loop_inside
      by (apply Forall_app; split; [assumption | now constructor]).
    cbn [bind st_chars st_morph_type].
    rewrite map_app. cbn [map app].
    change (mkCharacter c "B" "S" 0 ""
            :: map (fun a => mkCharacter a "I" "S" 0 "") r
               ++ [mkCharacter d "I" "S" 0 ""])
      with ((mkCharacter c "B" "S" 0 ""
             :: map (fun a => mkCharacter a "I" "S" 0 "") r)
            ++ [mkCharacter d "I" "S" 0 ""]).
    rewrite neg_index_last, last_snoc, set_last_tag_snoc. reflexivity.
Qed.

Lemma X9_plain_morph_witness :
  parse_ur_morph_chars ["c"%char] = Ok ("root", [mkCharacter "c" "L" "S" 0 ""])
  ∧ parse_ur_morph_chars ("c"%char :: ["a"%char] ++ ["t"%char])
    = Ok ("root",
          mkCharacter "c" "B" "S" 0 ""
          :: map (fun a => mkCharacter a "I" "S" 0 "") ["a"%char]
          ++ [mkCharacter "t" "L" "S" 0 ""]).
Proof.
  apply (X9_plain_morph "c" "t" ["a"%char]);
    [reflexivity | reflexivity | repeat constructor].
Defined.

(** ** More on the binder *)

Lemma bind_process_grows (matrix offset : Z) (sg : gmap Z string)
    (pr : string * list Z) :
  offset + 1 ≤ (bind_process matrix (offset, sg) pr).1
  ∧ ∀ k, is_Some (sg !! k) →
         is_Some ((bind_process matrix (offset, sg) pr).2 !! k).
Proof.
  destruct pr as [ft spans]. unfold bind_process.
  destruct spans as [|sp0 spans0].
  - simpl. split; [lia|]. intros k Hk.
    rewrite lookup_insert. case_decide; eauto.
  - remember (sp0 :: spans0) as spans eqn:Es. clear Es.
    assert (∀ (mx : Z) (sg0 : gmap Z string),
              ∀ k, is_Some (sg0 !! k) →
                   is_Some
                     ((fold_left
                         (fun '(mx, sg) sp =>
                            (Z.max sp mx, <[matrix + sp := ft]> sg))
                         spans (mx, sg0)).2 !! k)) as H.
    { induction spans as [|sp spans IH]; intros mx sg0 k Hk; simpl;
        [assumption|].
      apply IH. rewrite lookup_insert. case_decide; eauto. }
    specialize (H offset sg).
    destruct (fold_left _ spans (offset, sg)) as [mx' sg']. simpl in *.
    split; [lia | assumption].
Qed.

Lemma bind_processes_grow (matrix : Z) (prs : list (string * list Z)) :
  ∀ (offset : Z) (sg : gmap Z string),
    offset + Z.of_nat (length prs)
    ≤ (fold_left (bind_process matrix) prs (offset, sg)).1
    ∧ ∀ k, is_Some (sg !! k) →
           is_Some ((fold_left (bind_process matrix) prs (offset, sg)).2 !! k).
Proof.
  induction prs as [|pr prs IH]; intros offset sg; cbn [fold_left length].
  - simpl. split; [lia | auto].
  - destruct (bind_process_grows matrix offset sg pr) as [H1 H2].
    destruct (bind_process matrix (offset, sg) pr) as [o' sg'].
    destruct (IH o' sg') as [H3 H4]. simpl in H1, H2.
    split; [lia | auto].
Qed.

Lemma bind_morph_grows (offset matrix : Z) (sg : gmap Z string)
    (m : string * list (string * list Z)) :
  offset + Z.of_nat (length m.2) ≤ (bind_morph (offset, sg) (matrix, m)).1
  ∧ is_Some ((bind_morph (offset, sg) (matrix, m)).2 !! matrix)
  ∧ ∀ k, is_Some (sg !! k) →
         is_Some ((bind_morph (offset, sg) (matrix, m)).2 !! k).
Proof.
  destruct m as [ft prs]. unfold bind_morph. cbn [snd].
  destruct (bind_processes_grow matrix prs offset (<[matrix := ft]> sg))
    as [H1 H2].
  split; [assumption|]. split.
  - apply H2. rewrite lookup_insert_eq. eauto.
  - intros k Hk. apply H2. rewrite lookup_insert. case_decide; eauto.
Qed.

Lemma bind_loop_grows (gl : list (string * list (string * list Z))) :
  ∀ (k offset : Z) (sg : gmap Z string),
    offset + Z.of_nat (sum_list (map (fun m => length m.2) gl))
    ≤ (fold_left bind_morph (enumerate_from k gl) (offset, sg)).1
    ∧ (∀ j, is_Some (sg !! j) →
            is_Some
              ((fold_left bind_morph (enumerate_from k gl) (offset, sg)).2 !! j))
    ∧ ∀ i : nat, (i < length gl)%nat →
        is_Some ((fold_left bind_morph (enumerate_from k gl) (offset, sg)).2
                   !! (k + Z.of_nat i)).
Proof.
  induction gl as [|m gl IH]; intros k offset sg;
    cbn [fold_left enumerate_from length map sum_list].
  - simpl. repeat split; [lia | auto | intros i Hi; lia].
  - destruct (bind_morph_grows offset k sg m) as (H1 & H2 & H3).
    destruct (bind_morph (offset, sg) (k, m)) as [o' sg'].
    destruct (IH (k + 1) o' sg') as (H4 & H5 & H6). simpl in H1, H2, H3.
    repeat split.
    + change (id (length m.2)) with (length m.2).
      rewrite Nat2Z.inj_add. lia.
    + auto.
    + intros [|i] Hi.
      * rewrite Z.add_0_r. auto.
      * replace (k + Z.of_nat (S i)) with (k + 1 + Z.of_nat i) by lia.
        apply H6. lia.
Qed.

(** X10: after the binder has run over a parsed gloss, the index of every
    gloss morph is a key of the dictionary (an entry is overwritten at
    times but never removed), and the offset has advanced by at least one
    for every process of the line. *)
Theorem X10_binder_domain (gl : list (string * list (string * list Z)))
    (i : nat) :
  (i < length gl)%nat →
  is_Some ((bind_glosses gl).2 !! Z.of_nat i)
  ∧ 1 + Z.of_nat (sum_list (map (fun m => length m.2) gl))
    ≤ (bind_glosses gl).1.
Proof.
  intros Hi. unfold bind_glosses, enumerate.
  destruct (bind_loop_grows gl 0 1 ∅) as (H1 & _ & H3).
  split; [apply (H3 i Hi) | assumption].
Qed.

Lemma X10_binder_domain_witness :
  is_Some ((bind_glosses [("cat", [("X", [])]); ("dog", [])]).2 !! Z.of_nat 1)
  ∧ 1 + Z.of_nat (sum_list (map (fun m : string * list (string * list Z) =>
                                   length m.2)
                              [("cat", [("X", [])]); ("dog", [])]))
    ≤ (bind_glosses [("cat", [("X", [])]); ("dog", [])]).1.
Proof.
  apply (X10_binder_domain [("cat", [("X", [])]); ("dog", [])] 1).
  simpl. lia.
Defined.

(** The entry of the process of the first morph is overwritten by the
    feature of the second morph: both use key 1. *)
Example binder_overwrites :
  (bind_glosses [("cat", [("X", [])]); ("dog", [])]).2 !! 1 = Some "dog".
Proof. vm_compute. reflexivity. Qed.

Lemma stamp_all (sg : gmap Z string) (ur : list Character) :
  ∀ cs, mapM (stamp sg) ur = Ok cs →
        Forall2 (fun u c => sg !! span u = Some (Bilou.gloss c)
                            ∧ c = with_gloss (Bilou.gloss c) u) ur cs.
Proof.
  intros cs H. apply mapM_Forall2 in H.
  eapply Forall2_impl; [exact H|]. simpl. intros u c.
  unfold stamp. destruct (sg !! span u) as [g|]; [|discriminate].
  intros [= <-]. now split.
Qed.

(** X11: when [merged_form_gloss] returns, its characters are those of
    [parse_ur], one for one and in the same order, with grapheme, tag,
    operation and span id unchanged, and the gloss of each is the entry of
    its span id in the dictionary the binder built from the parsed
    gloss. *)
Theorem X11_stamping (form gloss : string) (cs : list Character) :
  merged_form_gloss form gloss = Ok cs →
  ∃ ur gl,
    parse_ur form = Ok ur ∧ parse_gloss gloss = Ok gl
    ∧ length cs = length ur
    ∧ Forall2 (fun u c =>
                 (bind_glosses gl).2 !! span u = Some (Bilou.gloss c)
                 ∧ char c = char u ∧ tag c = tag u ∧ op c = op u
                 ∧ span c = span u) ur cs.
Proof.
  unfold merged_form_gloss, mbind, result_bind.
  destruct (parse_ur form) as [ur|e]; cbn [bind]; [|discriminate].
  destruct (parse_gloss gloss) as [gl|e]; cbn [bind]; [|discriminate].
  intros H. apply stamp_all in H. exists ur, gl.
  repeat split; [symmetry; apply (Forall2_length _ _ _ H)|].
  eapply Forall2_impl; [exact H|]. simpl. intros u c [Hg ->].
  now repeat split.
Qed.

Lemma X11_stamping_witness :
  ∃ ur gl,
    parse_ur "a- b" = Ok ur ∧ parse_gloss "x- y" = Ok gl
    ∧ length [mkCharacter "a" "L" "S" 0 "x"; mkCharacter "b" "L" "S" 1 "y"]
      = length ur
    ∧ Forall2 (fun u c =>
                 (bind_glosses gl).2 !! span u = Some (Bilou.gloss c)
                 ∧ char c = char u ∧ tag c = tag u ∧ op c = op u
                 ∧ span c = span u) ur
        [mkCharacter "a" "L" "S" 0 "x"; mkCharacter "b" "L" "S" 1 "y"].
Proof.
  apply (X11_stamping "a- b" "x- y"). vm_compute. reflexivity.
Defined.

Lemma stamp_bound (sg : gmap Z string) (ur : list Character) :
  Forall (fun c => is_Some (sg !! span c)) ur →
  ∃ cs, mapM (stamp sg) ur = Ok cs.
Proof.
  induction 1 as [|c ur [g Hg] _ [cs IH]]; cbn [mapM]; [eauto|].
  unfold stamp at 1. rewrite Hg. cbn [bind]. rewrite IH. cbn [bind]. eauto.
Qed.

(** X12: [merged_form_gloss] returns whenever the UR line and the gloss
    line parse and every span id of the line is the index of a gloss
    morph; then no lookup can fail. *)
Theorem X12_merge_succeeds (form gloss : string) (ur : list Character)
    (gl : list (string * list (string * list Z))) :
  parse_ur form = Ok ur → parse_gloss gloss = Ok gl →
  Forall (fun c => 0 ≤ span c < Z.of_nat (length gl)) ur →
  ∃ cs, merged_form_gloss form gloss = Ok cs.
Proof.
  intros Hu Hg Hs. unfold merged_form_gloss, mbind, result_bind.
  rewrite Hu, Hg. cbn [bind]. apply stamp_bound.
  eapply Forall_impl; [exact Hs|]. simpl. intros c [H0 H1].
  destruct (bind_loop_grows gl 0 1 ∅) as (_ & _ & H3).
  specialize (H3 (Z.to_nat (span c)) ltac:(lia)).
  rewrite Z.add_0_l, Z2Nat.id in H3 by lia. exact H3.
Qed.

Lemma X12_merge_succeeds_witness :
  ∃ cs, merged_form_gloss "a- b" "x- y" = Ok cs.
Proof.
  apply (X12_merge_succeeds "a- b" "x- y"
           [mkCharacter "a" "L" "S" 0 ""; mkCharacter "b" "L" "S" 1 ""]
           [("x", []); ("y", [])]).
  - vm_compute. reflexivity.
  - vm_compute. reflexivity.
  - repeat constructor; simpl; lia.
Defined.

(** ** More on the grammars *)

Lemma parse_safe {A} (p : parser A) (s : string) :
  safe p → parse p s = Raise ParseError ∨ ∃ v, parse p s = Ok v.
Proof.
  intros Hp. unfold parse.
  assert (safe (skip p eof)) as H by parsy_safe.
  specialize (H (list_ascii_of_string s)).
  destruct (skip p eof _); [right; eauto | now left | contradiction].
Qed.


(** X14: an SR process needs a value: for every value without [}] that is
    not empty, [{value}] is a process token, and [{}] is rejected. *)
Theorem X14_sr_proc (c : ascii) (value rest : list ascii) :
  Forall (fun a => none_of "}" a = true) (c :: value) →
  sr_proc ("{"%char :: c :: value ++ "}"%char :: rest)
  = Success ("proc", string_of_list_ascii ("{"%char :: c :: value ++ ["}"%char]))
      rest
  ∧ sr_proc ("{"%char :: "}"%char :: rest) = Failure.
Proof.
  intros Hv. split; [|reflexivity].
  unfold sr_proc, add, pmap, seq2, pbind, regex_plus, success.
  change (string_ "{" ("{"%char :: ?s)) with (@Success string "{" s).
  cbv beta iota.
  change (c :: value ++ "}"%char :: rest)
    with ((c :: value) ++ "}"%char :: rest).
  rewrite (take_while_stop _ (c :: value) "}" _ Hv eq_refl).
  cbv beta iota.
  change (string_ "}" ("}"%char :: ?s)) with (@Success string "}" s).
  cbv beta iota. f_equal. f_equal.
  change ("{"%char :: c :: value ++ ["}"%char])
    with (["{"%char] ++ (c :: value) ++ ["}"%char]).
  rewrite !string_of_list_ascii_app. now rewrite string_append_assoc.
Qed.

Lemma X14_sr_proc_witness :
  sr_proc ("{"%char :: "o"%char :: [] ++ "}"%char :: ["t"%char])
  = Success ("proc",
             string_of_list_ascii ("{"%char :: "o"%char :: [] ++ ["}"%char]))
      ["t"%char]
  ∧ sr_proc ("{"%char :: "}"%char :: ["t"%char]) = Failure.
Proof.
  apply (X14_sr_proc "o" [] ["t"%char]). repeat constructor.
Defined.

Lemma returns_and {A} (p : parser A) (P Q : A → Prop) :
  returns p P → returns p Q → returns p (fun v => P v ∧ Q v).
Proof. intros HP HQ s v r E. split; [apply (HP _ _ _ E) | apply (HQ _ _ _ E)]. Qed.

Lemma returns_parse {A} (p : parser A) (P : A → Prop) (s : string) (v : A) :
  returns p P → parse p s = Ok v → P v.
Proof.
  intros Hp. unfold parse.
  destruct (skip p eof _) as [v' r| |] eqn:E; [|discriminate..].
  intros [= <-]. apply (returns_skip _ eof _ Hp _ _ _ E).
Qed.

Lemma returns_first_item {A} (p : parser A) (q : parser (list A)) :
  returns (add_list (times 1 p) q) (fun l => l ≠ []).
Proof.
  unfold add_list.
  eapply returns_pmap;
    [apply (returns_seq2 _ _ (fun l => l ≠ []) (fun _ => True));
     [|apply returns_any]|].
  - cbn [times]. eapply returns_pbind; [apply returns_any|]. intros a _.
    eapply returns_pmap; [apply returns_any|]. intros l _. discriminate.
  - intros [a b] [Ha _]. simpl in Ha. destruct a; [contradiction | discriminate].
Qed.

Lemma returns_sep_by_1 {A B} (p : parser A) (sep : parser B) (P : A → Prop) :
  returns p P → returns (sep_by p sep 1) (fun l => l ≠ [] ∧ Forall P l).
Proof.
  intros Hp. apply returns_and; [|now apply returns_sep_by].
  apply returns_first_item.
Qed.

Lemma returns_at_least_1 {A} (p : parser A) (P : A → Prop) :
  returns p P → returns (at_least 1 p) (fun l => l ≠ [] ∧ Forall P l).
Proof.
  intros Hp. apply returns_and; [apply returns_first_item|].
  unfold at_least. apply returns_add_list;
    [now apply returns_times | now apply returns_many].
Qed.

Lemma returns_regex_one (cls : ascii → bool) :
  returns (regex_one cls) (fun x => ∃ c, x = String c EmptyString ∧ cls c = true).
Proof.
  intros [|c s] v r; simpl; [discriminate|].
  destruct (cls c) eqn:E; [|discriminate]. intros [= <- _]. eauto.
Qed.

Lemma int_digit (c : ascii) :
  is_digit c = true → 0 ≤ int (String c EmptyString) ≤ 9.
Proof.
  unfold is_digit. intros H.
  apply andb_true_iff in H as [H1 H2].
  apply Nat.leb_le in H1, H2.
  change (int (String c EmptyString)) with (10 * 0 + digit_value c).
  unfold digit_value. lia.
Qed.

Lemma returns_gloss_proc :
  returns gloss_proc
    (fun pr => pr.2 ≠ [] ∧ Forall (fun i => -1 ≤ i ≤ 9) pr.2).
Proof.
  unfold gloss_proc. apply returns_alt.
  - unfold gloss_proc_qualified, seq3.
    eapply returns_pmap
      with (P := fun x : string * list Z * string =>
                   x.1.2 ≠ [] ∧ Forall (fun i => -1 ≤ i ≤ 9) x.1.2);
      [|intros [[x idxs] c] H; exact H].
    eapply returns_pbind; [apply returns_any|]. intros x _.
    eapply returns_pbind.
    + apply (returns_sep_by_1 _ _ (fun i => -1 ≤ i ≤ 9)).
      eapply returns_pmap; [apply returns_regex_one|].
      intros d (c & -> & Hc). pose proof (int_digit c Hc). lia.
    + intros idxs Hi. eapply returns_pbind; [apply returns_any|].
      intros c _. apply returns_success. exact Hi.
  - unfold gloss_proc_unqualified.
    eapply returns_pmap; [apply returns_any|]. intros x _. simpl.
    split; [discriminate|]. repeat constructor; lia.
Qed.

Lemma count_at_least_length (g_procs : list GlossProc) :
  Forall (fun pr : GlossProc => pr.2 ≠ []) g_procs →
  Z.of_nat (length g_procs) ≤ num_gloss_procs g_procs.
Proof.
  rewrite num_gloss_procs_count. unfold gloss_count.
  induction 1 as [|pr l Hpr _ IH]; [simpl; lia|].
  cbn [map sum_list sum_list_with length].
  destruct (pr.2) as [|i idxs]; [contradiction|]. simpl length.
  change (id (S (length idxs))) with (S (length idxs)). lia.
Qed.

(** X15: in a parsed gloss line of the validator every process has a list
    of indices that is not empty and holds only -1 (the process without
    indices) or single digits 0 to 9; so every process adds at least one
    to the process count of its morph. *)
Theorem X15_gloss_indices (s : string) (gl : list GlossMorph) :
  parse Validate.gloss s = Ok gl →
  Forall (fun m : GlossMorph =>
            Forall (fun pr : GlossProc =>
                      pr.2 ≠ [] ∧ Forall (fun i => -1 ≤ i ≤ 9) pr.2) m.2.2
            ∧ Z.of_nat (length m.2.2) ≤ num_gloss_procs m.2.2) gl.
Proof.
  apply returns_parse. unfold Validate.gloss. apply returns_sep_by.
  assert (returns gloss_morph_core
            (fun mc => Forall (fun pr : GlossProc =>
                                 pr.2 ≠ []
                                 ∧ Forall (fun i => -1 ≤ i ≤ 9) pr.2) mc.2
                       ∧ Z.of_nat (length mc.2) ≤ num_gloss_procs mc.2)) as Hc.
  { unfold gloss_morph_core.
    eapply returns_weaken;
      [apply (returns_seq2 _ _ (fun _ => True)
                (Forall (fun pr : GlossProc =>
                           pr.2 ≠ [] ∧ Forall (fun i => -1 ≤ i ≤ 9) pr.2)));
       [apply returns_any | apply returns_many, returns_gloss_proc]|].
    intros [x prs] [_ H]. simpl in *. split; [assumption|].
    apply count_at_least_length. eapply Forall_impl; [exact H|].
    simpl. tauto. }
  unfold gloss_morph, gloss_morph_suffix, gloss_morph_enclitic,
    gloss_morph_prefix, gloss_morph_proclitic, gloss_morph_root.
  repeat apply returns_alt.
  - eapply returns_pmap; [apply (returns_seq2 _ _ _ _ (returns_any _) Hc)|].
    intros [c x] [_ H]. exact H.
  - eapply returns_pmap; [apply (returns_seq2 _ _ _ _ (returns_any _) Hc)|].
    intros [c x] [_ H]. exact H.
  - eapply returns_pmap; [apply (returns_seq2 _ _ _ _ Hc (returns_any _))|].
    intros [x c] [H _]. exact H.
  - eapply returns_pmap; [apply (returns_seq2 _ _ _ _ Hc (returns_any _))|].
    intros [x c] [H _]. exact H.
  - eapply returns_pmap; [exact Hc|]. intros x H. exact H.
Qed.

Lemma X15_gloss_indices_witness :
  Forall (fun m : GlossMorph =>
            Forall (fun pr : GlossProc =>
                      pr.2 ≠ [] ∧ Forall (fun i => -1 ≤ i ≤ 9) pr.2) m.2.2
            ∧ Z.of_nat (length m.2.2) ≤ num_gloss_procs m.2.2)
    [("root", ("cat", [("ABLAUT", [1; 2]); ("NOUN", [-1])]))].
Proof.
  apply (X15_gloss_indices "cat{ABLAUT;1,2}{NOUN}"). vm_compute. reflexivity.
Defined.

(** A gloss process with an index of two digits is rejected by the
    validator's grammar and read as one index by [parse_gloss]. *)
Example two_digit_index :
  parse Validate.gloss "cat{ABLAUT;12}" = Raise ParseError
  ∧ parse_gloss "cat{ABLAUT;12}" = Ok [("cat", [("ABLAUT", [12])])].
Proof. split; vm_compute; reflexivity. Qed.

Lemma returns_form_core (proc : parser (string * string)) :
  returns proc (fun tok => tok.1 = "proc") →
  returns (at_least 1 (alt proc form_seg))
    (fun l => l ≠ []
              ∧ Forall (fun tok : string * string =>
                          tok.1 = "seg" ∨ tok.1 = "proc") l).
Proof.
  intros Hp. apply returns_at_least_1, returns_alt.
  - eapply returns_weaken; [exact Hp|]. intros tok H. now right.
  - unfold form_seg. eapply returns_pmap; [apply returns_any|].
    intros x _. now left.
Qed.

Lemma returns_form_morph {A B} (core : parser A) (dash equals : parser B)
    (P : A → Prop) :
  returns core P →
  returns
    (alt (pmap (fun '(_, x) => ("suffix", x)) (seq2 dash core))
       (alt (pmap (fun '(_, x) => ("enclitic", x)) (seq2 equals core))
          (alt (pmap (fun '(x, _) => ("prefix", x)) (seq2 core dash))
             (alt (pmap (fun '(x, _) => ("proclitic", x)) (seq2 core equals))
                (pmap (fun x => ("root", x)) core)))))
    (fun m : string * A =>
       (m.1 = "root" ∨ m.1 = "prefix" ∨ m.1 = "suffix"
        ∨ m.1 = "proclitic" ∨ m.1 = "enclitic")
       ∧ P m.2).
Proof.
  intros Hc. repeat apply returns_alt.
  - eapply returns_pmap; [apply (returns_seq2 _ _ _ _ (returns_any _) Hc)|].
    intros [c x] [_ H]. simpl. tauto.
  - eapply returns_pmap; [apply (returns_seq2 _ _ _ _ (returns_any _) Hc)|].
    intros [c x] [_ H]. simpl. tauto.
  - eapply returns_pmap; [apply (returns_seq2 _ _ _ _ Hc (returns_any _))|].
    intros [x c] [H _]. simpl. tauto.
  - eapply returns_pmap; [apply (returns_seq2 _ _ _ _ Hc (returns_any _))|].
    intros [x c] [H _]. simpl. tauto.
  - eapply returns_pmap; [exact Hc|]. intros x H. simpl. tauto.
Qed.

(** X16: every morph of a parsed UR or SR line has one of the five morph
    types and at least one token, and each of its tokens is tagged "seg"
    or "proc". *)
Theorem X16_form_morphs (s : string) (ms : list FormMorph) :
  parse ur_form s = Ok ms ∨ parse sr_form s = Ok ms →
  Forall (fun m : FormMorph =>
            (m.1 = "root" ∨ m.1 = "prefix" ∨ m.1 = "suffix"
             ∨ m.1 = "proclitic" ∨ m.1 = "enclitic")
            ∧ m.2 ≠ []
            ∧ Forall (fun tok : string * string =>
                        tok.1 = "seg" ∨ tok.1 = "proc") m.2) ms.
Proof.
  intros [H|H]; revert H; apply returns_parse.
  - unfold ur_form. apply returns_sep_by.
    apply (returns_form_morph ur_morph_core (string_ "-") (string_ "=")
             (fun l => l ≠ []
                       ∧ Forall (fun tok : string * string =>
                                   tok.1 = "seg" ∨ tok.1 = "proc") l)).
    apply returns_form_core. unfold ur_proc.
    eapply returns_pmap; [apply returns_any|]. reflexivity.
  - unfold sr_form. apply returns_sep_by.
    apply (returns_form_morph sr_morph_core (string_ "-") (string_ "=")
             (fun l => l ≠ []
                       ∧ Forall (fun tok : string * string =>
                                   tok.1 = "seg" ∨ tok.1 = "proc") l)).
    apply returns_form_core. unfold sr_proc.
    eapply returns_pmap; [apply returns_any|]. reflexivity.
Qed.

Lemma X16_form_morphs_witness :
  Forall (fun m : FormMorph =>
            (m.1 = "root" ∨ m.1 = "prefix" ∨ m.1 = "suffix"
             ∨ m.1 = "proclitic" ∨ m.1 = "enclitic")
            ∧ m.2 ≠ []
            ∧ Forall (fun tok : string * string =>
                        tok.1 = "seg" ∨ tok.1 = "proc") m.2)
    [("root", [("seg", "c"); ("proc", "{a>o}"); ("seg", "t")])].
Proof.
  apply (X16_form_morphs "c{a>o}t"). left. vm_compute. reflexivity.
Defined.

(** X17: the three grammars of the validator reject every line that
    begins with a space: a space only separates two morphs. *)
Theorem X17_leading_space (s : string) :
  parse ur_form (String " " s) = Raise ParseError
  ∧ parse sr_form (String " " s) = Raise ParseError
  ∧ parse Validate.gloss (String " " s) = Raise ParseError.
Proof. repeat split; reflexivity. Qed.

(** ** More on the schema check *)

Lemma validate_fields_cons (k : string) (v : value)
    (rest : list (string * value)) :
  validate_fields (VDict ((k, v) :: rest))
  = match (if String.eqb k "obj_lang" then Some (SchType TStr)
           else if String.eqb k "meta_lang" then Some (SchType TList)
           else if String.eqb k "segs"
                then assoc "segs" [("segs", SchDict [ ("start", SchType TFloat);
                                 ("end", SchType TFloat);
                                 ("speaker", SchType TInt);
                                 ("ur", SchType TStr);
                                 ("sr", SchType TStr);
                                 ("gl", SchType TStr);
                                 ("tr", SchType TStr) ])]
                else None) with
    | None => Raise StructureError
    | Some sch_key =>
        bind (match v with
              | VDict _ => helper v sch_key
              | _ => match sch_key with
                     | SchDict _ => Ok tt
                     | SchType t =>
                         if isinstance v t then Ok tt else Raise StructureError
                     end
              end)
          (fun _ => validate_fields (VDict rest))
    end.
Proof.
  unfold validate_fields, schema. cbn [helper assoc].
  destruct (String.eqb k "obj_lang"); [reflexivity|].
  destruct (String.eqb k "meta_lang"); [reflexivity|].
  destruct (String.eqb k "segs"); reflexivity.
Qed.

(** X18: on a document none of whose top-level values is a mapping, the
    schema check returns exactly when every key is [obj_lang] with a
    string, [meta_lang] with a list, or [segs] with any value at all, and
    raises a [StructureError] otherwise: the value of [segs] is never
    looked at. *)
Theorem X18_flat_document (items : list (string * value)) :
  Forall (fun kv : string * value => ∀ d, kv.2 ≠ VDict d) items →
  (validate_fields (VDict items) = Ok tt
   ↔ Forall (fun kv : string * value =>
               (kv.1 = "obj_lang" ∧ ∃ s, kv.2 = VStr s)
               ∨ (kv.1 = "meta_lang" ∧ ∃ l, kv.2 = VList l)
               ∨ kv.1 = "segs") items)
  ∧ (validate_fields (VDict items) = Ok tt
     ∨ validate_fields (VDict items) = Raise StructureError).
Proof.
  induction 1 as [|[k v] rest Hv _ [IH1 IH2]].
  - split; [split; [constructor | reflexivity] | now left].
  - rewrite validate_fields_cons. simpl in Hv.
    destruct (String.eqb_spec k "obj_lang") as [->|Hk1].
    { destruct v; try (specialize (Hv items); contradiction);
        cbn [isinstance bind];
        try (split; [split; [discriminate|] | now right];
             intros HF; inversion HF as [|? ? [[_ [s Hs]]|[[Hk _]|Hk]] _];
             subst; simpl in *; discriminate).
      split; [|exact IH2]. rewrite IH1. split.
      - intros HF. constructor; [left; eauto | assumption].
      - intros HF. now inversion HF. }
    destruct (String.eqb_spec k "meta_lang") as [->|Hk2].
    { destruct v; try (specialize (Hv items); contradiction);
        cbn [isinstance bind];
        try (split; [split; [discriminate|] | now right];
             intros HF; inversion HF as [|? ? [[Hk _]|[[_ [l Hl]]|Hk]] _];
             subst; simpl in *; discriminate).
      split; [|exact IH2]. rewrite IH1. split.
      - intros HF. constructor; [right; left; eauto | assumption].
      - intros HF. now inversion HF. }
    destruct (String.eqb_spec k "segs") as [->|Hk3].
    { cbn [assoc String.eqb Ascii.eqb Bool.eqb andb].
      destruct v; try (specialize (Hv items); contradiction); cbn [bind];
        (split; [|exact IH2]); rewrite IH1;
        (split; intros HF;
         [constructor; [right; right; reflexivity | assumption]
         | now inversion HF]). }
    split; [split; [discriminate|] | now right].
    intros HF. inversion HF as [|? ? [[Hk _]|[[Hk _]|Hk]] _]; simpl in Hk;
      contradiction.
Qed.

Lemma X18_flat_document_witness :
  (validate_fields (VDict [("obj_lang", VStr "deu"); ("segs", VInt 5)]) = Ok tt
   ↔ Forall (fun kv : string * value =>
               (kv.1 = "obj_lang" ∧ ∃ s, kv.2 = VStr s)
               ∨ (kv.1 = "meta_lang" ∧ ∃ l, kv.2 = VList l)
               ∨ kv.1 = "segs") [("obj_lang", VStr "deu"); ("segs", VInt 5)])
  ∧ (validate_fields (VDict [("obj_lang", VStr "deu"); ("segs", VInt 5)])
     = Ok tt
     ∨ validate_fields (VDict [("obj_lang", VStr "deu"); ("segs", VInt 5)])
       = Raise StructureError).
Proof.
  apply (X18_flat_document [("obj_lang", VStr "deu"); ("segs", VInt 5)]).
  repeat constructor; simpl; discriminate.
Defined.

(** ** What the validator raises *)

Ltac pick_exn :=
  first [ left; reflexivity
        | right; left; reflexivity
        | right; right; reflexivity ].

Lemma helper_raises :
  ∀ (obj : value) (sch : schema_t) (e : exn),
    helper obj sch = Raise e →
    e = StructureError ∨ e = TypeError ∨ e = AttributeError.
Proof.
  fix IH 1. intros obj sch. destruct obj as [| | | | | |items];
    try (simpl; intros e [= <-]; pick_exn).
  cbn [helper]. destruct sch as [t|fields].
  { intros e.
    destruct items as [|[k v] rest]; [intros [=] | intros [= <-]; pick_exn]. }
  revert items. fix IHl 1. intros items e.
  destruct items as [|[k v] rest]; [intros [=]|].
  destruct (assoc k fields) as [sch_key|]; [|intros [= <-]; pick_exn].
  unfold mbind, result_bind.
  pose proof (IH v sch_key) as IHv. pose proof (IHl rest e) as IHr.
  clear IH IHl.
  destruct v as [| | | | | |d];
    try (destruct sch_key as [t|fs]; cbn [bind];
         [destruct (isinstance _ t); cbn [bind];
          [exact IHr | intros [= <-]; pick_exn]
         | exact IHr]).
  destruct (helper (VDict d) sch_key) as [[]|e'] eqn:E; cbn [bind].
  - exact IHr.
  - intros [= <-]. exact (IHv _ eq_refl).
Qed.

Lemma parse_field_raises {A} (grammar : parser A) (seg : value) (key : string)
    (e : exn) :
  safe grammar → parse_field grammar seg key = Raise e →
  e = StructureError ∨ e = TypeError ∨ e = KeyError (VStr key).
Proof.
  intros Hg. unfold parse_field.
  destruct seg; try (intros [= <-]; auto).
  destruct (assoc key items) as [v|]; [|intros [= <-]; auto].
  destruct v; try (intros [= <-]; auto).
  destruct (parse_safe grammar s Hg) as [->|[v ->]];
    [intros [= <-]; auto | discriminate].
Qed.

Lemma validate_token_raises (tok : FormMorph * FormMorph * GlossMorph)
    (e : exn) :
  validate_token tok = Raise e → e = AlignmentError.
Proof.
  destruct tok as [[[ut u] [st s]] [gt [x g]]]. unfold validate_token.
  destruct (_ && _); [|now intros [= <-]].
  unfold validate_procs. destruct (_ && _); [discriminate | now intros [= <-]].
Qed.

Lemma foldM_unit_raises {A} (f : A → result unit) (l : list A) (e : exn) :
  foldM (fun _ x => f x) l tt = Raise e → ∃ x, x ∈ l ∧ f x = Raise e.
Proof.
  induction l as [|x l IH]; cbn [foldM]; [discriminate|].
  destruct (f x) as [[]|e'] eqn:E; cbn [bind].
  - intros H. destruct (IH H) as (y & Hy & Hf). exists y.
    split; [now right | assumption].
  - intros [= <-]. exists x. split; [now left | assumption].
Qed.

Lemma validate_seg_raises (seg : value) (e : exn) :
  validate_seg seg = Raise e →
  e = StructureError ∨ e = AlignmentError ∨ e = TypeError
  ∨ ∃ k, e = KeyError (VStr k).
Proof.
  destruct safe_validate_grammars as (Hu & Hs & Hg).
  unfold validate_seg, mbind, result_bind.
  destruct (parse_field ur_form seg "ur") as [ur|e1] eqn:E1; cbn [bind].
  2:{ intros [= <-].
      destruct (parse_field_raises _ _ _ _ Hu E1) as [->|[->| ->]]; eauto 6. }
  destruct (parse_field sr_form seg "sr") as [sr|e2] eqn:E2; cbn [bind].
  2:{ intros [= <-].
      destruct (parse_field_raises _ _ _ _ Hs E2) as [->|[->| ->]]; eauto 6. }
  destruct (parse_field Validate.gloss seg "gl") as [gl|e3] eqn:E3; cbn [bind].
  2:{ intros [= <-].
      destruct (parse_field_raises _ _ _ _ Hg E3) as [->|[->| ->]]; eauto 6. }
  destruct (_ && _); [|intros [= <-]; auto].
  intros H. apply foldM_unit_raises in H as (tok & _ & H).
  apply validate_token_raises in H. auto.
Qed.

Lemma validate_segs_raises (doc : value) (e : exn) :
  validate_segs doc = Raise e →
  e = StructureError ∨ e = AlignmentError ∨ e = TypeError
  ∨ ∃ k, e = KeyError (VStr k).
Proof.
  unfold validate_segs. destruct doc; try (intros [= <-]; auto).
  destruct (assoc "segs" items) as [v|]; [|intros [= <-]; eauto 6].
  destruct v as [| | | |s|segs|d]; try (intros [= <-]; auto).
  - destruct s; [discriminate | intros [= <-]; auto].
  - intros H. apply foldM_unit_raises in H as (seg & _ & H).
    apply (validate_seg_raises _ _ H).
  - destruct d; [discriminate | intros [= <-]; auto].
Qed.

(** X19: [validate_segs] raises nothing but [StructureError],
    [AlignmentError], [TypeError] and the [KeyError] of a missing key:
    every [ParseError] of the three grammars is turned into a
    [StructureError], and no line makes a grammar loop. *)
Theorem X19_validate_segs_raises (doc : value) (e : exn) :
  validate_segs doc = Raise e →
  e = StructureError ∨ e = AlignmentError ∨ e = TypeError
  ∨ ∃ k, e = KeyError k.
Proof.
  intros H.
  destruct (validate_segs_raises _ _ H) as [->|[->|[->|[k ->]]]]; eauto 6.
Qed.

Lemma X19_validate_segs_raises_witness :
  StructureError = StructureError ∨ StructureError = AlignmentError
  ∨ StructureError = TypeError ∨ ∃ k, StructureError = KeyError k.
Proof.
  apply (X19_validate_segs_raises
           (VDict [("segs", VList [VDict [("ur", VStr "{a}")]])])).
  vm_compute. reflexivity.
Defined.

(** X20: on a document that was loaded, [validate] returns, having
    reported a [StructureError] or an [AlignmentError] if there was one, or
    lets a [TypeError], an [AttributeError] or a [KeyError] escape; parsy's
    [ParseError] never reaches its handler. *)
Theorem X20_validate_loaded (doc : value) (verbose : bool) :
  (validate_body (Ok doc) verbose).2 ≠ Raise ParseError
  ∧ ((validate (Ok doc) verbose).2 = Ok tt
     ∨ (validate (Ok doc) verbose).2 = Raise TypeError
     ∨ (validate (Ok doc) verbose).2 = Raise AttributeError
     ∨ ∃ k, (validate (Ok doc) verbose).2 = Raise (KeyError k)).
Proof.
  unfold validate, validate_body.
  destruct (validate_fields doc) as [[]|e] eqn:Ef.
  - destruct (validate_segs doc) as [[]|e] eqn:Es.
    + simpl. split; [discriminate | now left].
    + destruct (validate_segs_raises _ _ Es) as [->|[->|[->|[k ->]]]];
        simpl; (split; [discriminate|]); eauto 6.
  - unfold validate_fields in Ef.
    destruct (helper_raises _ _ _ Ef) as [->|[->| ->]];
      simpl; (split; [discriminate|]); eauto 6.
Qed.

Lemma foldM_unit_first {A} (f : A → result unit) (pre post : list A) (bad : A)
    (e : exn) :
  Forall (fun x => f x = Ok tt) pre → f bad = Raise e →
  foldM (fun _ x => f x) (pre ++ bad :: post) tt = Raise e.
Proof.
  intros Hpre Hbad. induction Hpre as [|x pre Hx _ IH]; cbn [app foldM].
  - now rewrite Hbad.
  - rewrite Hx. exact IH.
Qed.

Lemma foldM_unit_all {A} (f : A → result unit) (l : list A) :
  Forall (fun x => f x = Ok tt) l → foldM (fun _ x => f x) l tt = Ok tt.
Proof.
  induction 1 as [|x l Hx _ IH]; cbn [foldM]; [reflexivity|].
  rewrite Hx. exact IH.
Qed.

(** X21: [validate_segs] stops at the first segment that fails: the
    exception of that segment is the one raised, whatever the segments
    after it hold; and it returns when every segment passes. *)
Theorem X21_first_failing_segment (items : list (string * value))
    (pre post : list value) (bad : value) (e : exn) :
  assoc "segs" items = Some (VList (pre ++ bad :: post)) →
  Forall (fun seg => validate_seg seg = Ok tt) pre →
  validate_seg bad = Raise e →
  validate_segs (VDict items) = Raise e
  ∧ validate_segs (VDict [("segs", VList pre)]) = Ok tt.
Proof.
  intros Hs Hpre Hbad. unfold validate_segs. rewrite Hs.
  split; [now apply foldM_unit_first|].
  cbn [assoc String.eqb Ascii.eqb Bool.eqb andb]. now apply foldM_unit_all.
Qed.

Lemma X21_first_failing_segment_witness :
  validate_segs
    (VDict [("segs",
             VList ([VDict [("ur", VStr "cat"); ("sr", VStr "cat");
                            ("gl", VStr "cat")]]
                    ++ VDict [("ur", VStr "cat"); ("sr", VStr "cat");
                              ("gl", VStr "cat{NOUN}")]
                    :: [VInt 3]))])
  = Raise AlignmentError
  ∧ validate_segs
      (VDict [("segs", VList [VDict [("ur", VStr "cat"); ("sr", VStr "cat");
                                     ("gl", VStr "cat")]])])
    = Ok tt.
Proof.
  apply (X21_first_failing_segment
           [("segs",
             VList ([VDict [("ur", VStr "cat"); ("sr", VStr "cat");
                            ("gl", VStr "cat")]]
                    ++ VDict [("ur", VStr "cat"); ("sr", VStr "cat");
                              ("gl", VStr "cat{NOUN}")]
                    :: [VInt 3]))]
           [VDict [("ur", VStr "cat"); ("sr", VStr "cat"); ("gl", VStr "cat")]]
           [VInt 3]
           (VDict [("ur", VStr "cat"); ("sr", VStr "cat");
                   ("gl", VStr "cat{NOUN}")])).
  - reflexivity.
  - repeat constructor.
  - vm_compute. reflexivity.
Defined.

(** X22: a token passes exactly when its three morph types are the same
    string and its three process counts are equal; in every other case an
    [AlignmentError] is raised, and a difference of type is found before
    the processes are counted. *)
Theorem X22_validate_token (u_type s_type g_type x : string)
    (u s : list (string * string)) (g_procs : list GlossProc) :
  (validate_token ((u_type, u), (s_type, s), (g_type, (x, g_procs))) = Ok tt
   ↔ u_type = s_type ∧ s_type = g_type
     ∧ count_procs u = count_procs s ∧ count_procs s = gloss_count g_procs)
  ∧ (validate_token ((u_type, u), (s_type, s), (g_type, (x, g_procs))) = Ok tt
     ∨ validate_token ((u_type, u), (s_type, s), (g_type, (x, g_procs)))
       = Raise AlignmentError).
Proof.
  unfold validate_token, validate_procs.
  rewrite !num_form_procs_count, num_gloss_procs_count.
  destruct (String.eqb_spec u_type s_type) as [Hus|Hus];
    destruct (String.eqb_spec s_type g_type) as [Hsg|Hsg]; cbn [andb];
    try (split; [split; [discriminate | tauto] | now right]).
  destruct (Z.eqb_spec (count_procs u) (count_procs s)) as [H1|H1];
    destruct (Z.eqb_spec (count_procs s) (gloss_count g_procs)) as [H2|H2];
    cbn [andb];
    try (split; [split; [discriminate | tauto] | now right]).
  split; [split; [tauto | reflexivity] | now left].
Qed.

(** X23: with a loaded document, [validate] prints "Valid." exactly when
    the schema check and the check of the segments both return, and then
    it is the last line printed. *)
Theorem X23_prints_valid (doc : value) (verbose : bool) :
  (Valid ∈ (validate (Ok doc) verbose).1
   ↔ validate_fields doc = Ok tt ∧ validate_segs doc = Ok tt)
  ∧ (Valid ∈ (validate (Ok doc) verbose).1 →
     last (validate (Ok doc) verbose).1 = Some Valid
     ∧ (validate (Ok doc) verbose).2 = Ok tt).
Proof.
  unfold validate, validate_body, stage.
  destruct (validate_fields doc) as [[]|e1];
    [destruct (validate_segs doc) as [[]|e2]|];
    destruct verbose; try destruct e1; try destruct e2; simpl;
    (split; [split|]);
    try (intros [H1 H2]; discriminate);
    try (intros H;
         repeat (apply elem_of_cons in H as [H|H]; [discriminate|]);
         exfalso; apply elem_of_nil in H; exact H).
  all: try (intros _; split; reflexivity).
  all: intros _; repeat constructor.
Qed.

(** ** Span ids along a line, morph by morph *)



